(** * ccystl memory layer: construct/destroy, uninitialized bulk algorithms,
    temporary_buffer, auto_ptr and allocator.

    Shallow embedding of src/unnamed/part_007 (construct.h),
    src/ccystl/allocator/uninitialized.h, src/ccystl/allocator/memory.h,
    [ccystl::distance] of iterator.h (src/ccystl/main.cpp) and
    src/unnamed/part_008 (allocator.h).

    Memory is explicit state: a source region, a destination region of slots
    that are raw or live, a log of the constructor and destructor calls made
    on destination slots, and the number of constructor calls made so far.
    Whether the [c]-th constructor call throws is given by an oracle
    [ctor], so a C++ exception is a [Thrown] result carrying the exception
    object.  The type traits the code dispatches on are a record of booleans. *)

From Stdlib Require Import ZArith Lia.
From stdpp Require Import base list gmap sets.

(** Compile-time triviality queries used for dispatch
    (std::is_trivially_... in the source). *)
Record traits := mk_traits {
  trivially_default_constructible : bool;
  trivially_copy_assignable : bool;
  trivially_move_assignable : bool;
  trivially_destructible : bool
}.

Inductive slot (A : Type) : Type :=
| Raw
| Live (a : A).
Arguments Raw {A}.
Arguments Live {A} a.

(** Calls made on destination slot [i]. *)
Inductive event : Type :=
| Constructed (i : nat)
| Destroyed (i : nat).

Record st (A : Type) : Type := mk_st {
  src : list A;           (** the source range, as positions 0, 1, ... *)
  dst : list (slot A);    (** the destination region, as positions 0, 1, ... *)
  log : list event;       (** constructor/destructor calls on [dst], in order *)
  calls : nat             (** constructor calls made so far *)
}.
Arguments mk_st {A} _ _ _ _.
Arguments src {A} _.
Arguments dst {A} _.
Arguments log {A} _.
Arguments calls {A} _.

(** Outcome of a call: a normal return with a value, or a propagated
    exception [e]; both carry the memory afterwards. *)
Inductive outcome (E A R : Type) : Type :=
| Normal (r : R) (s : st A)
| Thrown (e : E) (s : st A).
Arguments Normal {E A R} r s.
Arguments Thrown {E A R} e s.

(** State of a [for] loop of construct calls inside a [try] block: it ran to
    the end with [cur] one past the last slot written, or the constructor of
    slot [cur] threw [e]. *)
Inductive loop_res (E A : Type) : Type :=
| Done (cur : nat) (s : st A)
| Broke (e : E) (cur : nat) (s : st A).
Arguments Done {E A} cur s.
Arguments Broke {E A} e cur s.

Section Memory.
Context {A E : Type}.
Variable tr : traits.
(** [ctor c = Some e]: the [c]-th constructor call (0-indexed) throws [e]. *)
Variable ctor : nat -> option E.
(** The state a move construction leaves its source element in. *)
Variable moved_from : A -> A.

Definition set_dst (d : list (slot A)) (s : st A) : st A :=
  mk_st (src s) d (log s) (calls s).
Definition set_src (x : list A) (s : st A) : st A :=
  mk_st x (dst s) (log s) (calls s).

(** ** construct.h (src/unnamed/part_007) *)

(** [ccystl::construct(ptr, value)]: placement new of a copy (or move) of
    [value] into destination slot [i]; the constructor may throw. *)
Definition construct (i : nat) (v : A) (s : st A) : outcome E A unit :=
  match ctor (calls s) with
  | Some e => Thrown e (mk_st (src s) (dst s) (log s) (S (calls s)))
  | None =>
      Normal tt (mk_st (src s) (<[i := Live v]> (dst s))
                       (log s ++ [Constructed i]) (S (calls s)))
  end.

(** [destroy_one(ptr, is_trivial)]: nothing for a trivially destructible
    type, otherwise [ptr->~Ty()] ([ptr] is never null here: it is [&*it]). *)
Definition destroy_one (trivial : bool) (i : nat) (s : st A) : st A :=
  if trivial then s
  else mk_st (src s) (<[i := Raw]> (dst s)) (log s ++ [Destroyed i]) (calls s).

(** [destroy(Ty* ptr)] *)
Definition destroy_ptr (i : nat) (s : st A) : st A :=
  destroy_one (trivially_destructible tr) i s.

(** [for (; first != last; ++first) destroy(&*first);] with [k = last - first]. *)
Fixpoint destroy_loop (k first : nat) (s : st A) : st A :=
  match k with
  | 0 => s
  | S k' => destroy_loop k' (S first) (destroy_ptr first s)
  end.

(** [destroy_cat(first, last, is_trivial)] *)
Definition destroy_cat (first last : nat) (trivial : bool) (s : st A) : st A :=
  if trivial then s else destroy_loop (last - first) first s.

(** [destroy(first, last)] *)
Definition destroy (first last : nat) (s : st A) : st A :=
  destroy_cat first last (trivially_destructible tr) s.

(** ** Flat algorithms of algobase.h *)

(** Modelled from the spec: [ccystl::copy], [ccystl::copy_n] and
    [ccystl::fill_n], [ccystl::fill] and [ccystl::move] of algobase.h, which is
    not under src/.  Section 4.3: on the trivial path the bulk operations
    delegate to "a flat copy/fill/move over the byte range", and the [_n]
    variants "return the post-destination position ... one past the last slot
    written".  A flat write calls no constructor and cannot fail. *)
Fixpoint flat_write (xs : list A) (result : nat) (s : st A) : nat * st A :=
  match xs with
  | [] => (result, s)
  | x :: xs' => flat_write xs' (S result) (set_dst (<[result := Live x]> (dst s)) s)
  end.

(** ** uninitialized.h: the construct loops of the [try] blocks *)

(** [for (; first != last; ++first, ++cur) construct(&*cur, *first);]
    over the values [xs] of the input range [first, last). *)
Fixpoint copy_loop (xs : list A) (cur : nat) (s : st A) : loop_res E A :=
  match xs with
  | [] => Done cur s
  | x :: xs' =>
      match construct cur x s with
      | Normal _ s' => copy_loop xs' (S cur) s'
      | Thrown e s' => Broke e cur s'
      end
  end.

(** [for (; n > 0; --n, ++cur, ++first) construct(&*cur, *first);]
    reading the input range [xs] from its start. *)
Fixpoint copy_n_loop (n : nat) (xs : list A) (cur : nat) (s : st A) : loop_res E A :=
  match n, xs with
  | 0, _ => Done cur s
  | S _, [] => Done cur s   (* reading past the input range: outside the contract *)
  | S n', x :: xs' =>
      match construct cur x s with
      | Normal _ s' => copy_n_loop n' xs' (S cur) s'
      | Thrown e s' => Broke e cur s'
      end
  end.

(** [for (; n > 0; --n, ++cur) construct(&*cur, value);]; with
    [n = last - first] it is also the loop of [uninitialized_fill]. *)
Fixpoint fill_loop (n : nat) (value : A) (cur : nat) (s : st A) : loop_res E A :=
  match n with
  | 0 => Done cur s
  | S n' =>
      match construct cur value s with
      | Normal _ s' => fill_loop n' value (S cur) s'
      | Thrown e s' => Broke e cur s'
      end
  end.

(** [for (; n > 0; --n, ++first, ++cur) construct(&*cur, ccystl::move( *first));]
    over source positions [first, first + n); a completed move construction
    leaves the source element moved-from. *)
Fixpoint move_loop (n first cur : nat) (s : st A) : loop_res E A :=
  match n with
  | 0 => Done cur s
  | S n' =>
      match src s !! first with
      | None => Done cur s   (* reading past the source range: outside the contract *)
      | Some x =>
          match construct cur x s with
          | Normal _ s' =>
              move_loop n' (S first) (S cur)
                (set_src (<[first := moved_from x]> (src s')) s')
          | Thrown e s' => Broke e cur s'
          end
      end
  end.

(** [for (; result != cur; --cur) destroy(&*cur);]: destroys [cur],
    [cur - 1], ..., [result + 1] and leaves [cur = result]. *)
Fixpoint destroy_down (k cur : nat) (s : st A) : nat * st A :=
  match k with
  | 0 => (cur, s)
  | S k' => destroy_down k' (pred cur) (destroy_ptr cur s)
  end.

(** ** uninitialized.h: the six bulk operations *)

(** [unchecked_uninit_copy(first, last, result, false_type)]: the handler
    runs [for (; result != cur; --cur) destroy(&*cur);] and has no
    [throw;], then [return cur;]. *)
Definition unchecked_uninit_copy_nontrivial (xs : list A) (result : nat) (s : st A)
  : outcome E A nat :=
  match copy_loop xs result s with
  | Done cur s' => Normal cur s'
  | Broke _ cur s' => let '(cur', s'') := destroy_down (cur - result) cur s' in Normal cur' s''
  end.

Definition uninitialized_copy (xs : list A) (result : nat) (s : st A) : outcome E A nat :=
  if trivially_copy_assignable tr
  then let '(r, s') := flat_write xs result s in Normal r s'
  else unchecked_uninit_copy_nontrivial xs result s.

(** [unchecked_uninit_copy_n(first, n, result, false_type)]: same handler. *)
Definition unchecked_uninit_copy_n_nontrivial (xs : list A) (n result : nat) (s : st A)
  : outcome E A nat :=
  match copy_n_loop n xs result s with
  | Done cur s' => Normal cur s'
  | Broke _ cur s' => let '(cur', s'') := destroy_down (cur - result) cur s' in Normal cur' s''
  end.

(** [uninitialized_copy_n]; the trivial path is [ccystl::copy_n(first, n,
    result).second]. *)
Definition uninitialized_copy_n (xs : list A) (n result : nat) (s : st A) : outcome E A nat :=
  if trivially_copy_assignable tr
  then let '(r, s') := flat_write (take n xs) result s in Normal r s'
  else unchecked_uninit_copy_n_nontrivial xs n result s.

(** [unchecked_uninit_fill(first, last, value, false_type)]: the handler
    runs [for (; first != cur; ++first) destroy(&*first);] with no [throw;]. *)
Definition unchecked_uninit_fill_nontrivial (first last : nat) (value : A) (s : st A)
  : outcome E A unit :=
  match fill_loop (last - first) value first s with
  | Done _ s' => Normal tt s'
  | Broke _ cur s' => Normal tt (destroy_loop (cur - first) first s')
  end.

Definition uninitialized_fill (first last : nat) (value : A) (s : st A) : outcome E A unit :=
  if trivially_copy_assignable tr
  then Normal tt (snd (flat_write (replicate (last - first) value) first s))
  else unchecked_uninit_fill_nontrivial first last value s.

(** [unchecked_uninit_fill_n(first, n, value, false_type)]: same handler,
    then [return cur;]. *)
Definition unchecked_uninit_fill_n_nontrivial (first n : nat) (value : A) (s : st A)
  : outcome E A nat :=
  match fill_loop n value first s with
  | Done cur s' => Normal cur s'
  | Broke _ cur s' => Normal cur (destroy_loop (cur - first) first s')
  end.

Definition uninitialized_fill_n (first n : nat) (value : A) (s : st A) : outcome E A nat :=
  if trivially_copy_assignable tr
  then let '(r, s') := flat_write (replicate n value) first s in Normal r s'
  else unchecked_uninit_fill_n_nontrivial first n value s.

(** [unchecked_uninit_move(first, last, result, false_type)]: the handler
    runs [ccystl::destroy(result, cur);] with no [throw;]. *)
Definition unchecked_uninit_move_nontrivial (first last result : nat) (s : st A)
  : outcome E A nat :=
  match move_loop (last - first) first result s with
  | Done cur s' => Normal cur s'
  | Broke _ cur s' => Normal cur (destroy result cur s')
  end.

(** The trivial path [ccystl::move] is a flat copy of the source range. *)
Definition uninitialized_move (first last result : nat) (s : st A) : outcome E A nat :=
  if trivially_move_assignable tr
  then let '(r, s') := flat_write (take (last - first) (drop first (src s))) result s in
       Normal r s'
  else unchecked_uninit_move_nontrivial first last result s.

(** [unchecked_uninit_move_n(first, n, result, false_type)]: the handler
    runs [for (; result != cur; ++result) destroy(&*result);] and then
    [throw;]. *)
Definition unchecked_uninit_move_n_nontrivial (first n result : nat) (s : st A)
  : outcome E A nat :=
  match move_loop n first result s with
  | Done cur s' => Normal cur s'
  | Broke e cur s' => Thrown e (destroy_loop (cur - result) result s')
  end.

Definition uninitialized_move_n (first n result : nat) (s : st A) : outcome E A nat :=
  if trivially_move_assignable tr
  then let '(r, s') := flat_write (take n (drop first (src s))) result s in Normal r s'
  else unchecked_uninit_move_n_nontrivial first n result s.

End Memory.

(** ** memory.h: temporary buffers *)

(** A raw pointer value: null, an address, or the indeterminate value of a
    pointer member that was never assigned. *)
Inductive ptr : Type :=
| Null
| Addr (a : positive)
| Indeterminate.

#[global] Instance ptr_eq_dec : EqDecision ptr.
Proof. solve_decision. Defined.

Definition INT_MAX : Z := 2147483647.

(** [temporary_buffer]'s data members. *)
Record temporary_buffer := mk_tb {
  original_len : Z;   (** [ptrdiff_t original_len{}] *)
  len : Z;            (** [ptrdiff_t len] *)
  buffer : ptr        (** [T* buffer] (no initializer) *)
}.

(** [size()]: [return len;] *)
Definition size (tb : temporary_buffer) : Z := len tb.
(** [requested_size()]: [return original_len;] *)
Definition requested_size (tb : temporary_buffer) : Z := original_len tb.

(** The iterator category tags of iterator.h usable with [distance]
    ([output_iterator_tag] has no [distance_dispatch] overload). *)
Inductive iterator_tag : Type :=
| input_iterator_tag
| forward_iterator_tag
| bidirectional_iterator_tag
| random_access_iterator_tag.

Section TemporaryBuffer.
Context {A E : Type}.
Variable tr : traits.
Variable ctor : nat -> option E.
Variable sizeof_T : Z.
(** [malloc bytes]: [Some a] when it returns address [a], [None] when it
    returns a null pointer. *)
Variable malloc : Z -> option positive.

(** [if (len > static_cast<ptrdiff_t>(INT_MAX / sizeof(T))) len = INT_MAX / sizeof(T);] *)
Definition clamp_len (l : Z) : Z :=
  if Z.gtb l (INT_MAX / sizeof_T) then INT_MAX / sizeof_T else l.

(** [while (len > 0) { p = malloc(len * sizeof(T)); if (p) exit; len /= 2; }]
    started at a positive [len = Z.pos p].  For [p = xO q] or [p = xI q],
    [Z.pos p / 2 = Z.pos q]; for [p = 1], [1 / 2 = 0] ends the loop with the
    last [malloc] having returned null. *)
Fixpoint halving_alloc (p : positive) : ptr * Z :=
  match malloc (Z.pos p * sizeof_T) with
  | Some a => (Addr a, Z.pos p)
  | None =>
      match p with
      | xH => (Null, 0%Z)
      | xO q | xI q => halving_alloc q
      end
  end.

(** [get_buffer_helper(len, unused)]: clamp, then the halving loop; after the
    loop [return pair<T*, ptrdiff_t>(nullptr, 0);]. *)
Definition get_buffer_helper (l : Z) : ptr * Z :=
  match clamp_len l with
  | Z.pos p => halving_alloc p
  | _ => (Null, 0%Z)
  end.

(** [get_temporary_buffer(len)] *)
Definition get_temporary_buffer (l : Z) : ptr * Z := get_buffer_helper l.

(** [temporary_buffer::allocate_buffer()]: [original_len = len;], clamp, then
    [while (len > 0) { buffer = malloc(len * sizeof(T)); if (buffer) break;
    len /= 2; }].  When the loop body never runs, [buffer] keeps its value. *)
Definition allocate_buffer (tb : temporary_buffer) : temporary_buffer :=
  match clamp_len (len tb) with
  | Z.pos p => let '(b, l') := halving_alloc p in mk_tb (len tb) l' b
  | l => mk_tb (len tb) l (buffer tb)
  end.

(** [ccystl::distance(first, last)] of iterator.h (src/ccystl/main.cpp),
    dispatched on [iterator_category(first)].  The range [first, last) is the
    input sequence [xs], at positions [0] to [length xs]. *)

(** [distance_dispatch(first, last, input_iterator_tag)]:
    [while (first != last) { ++first; ++n; } return n;] from [n = 0]. *)
Fixpoint distance_loop (xs : list A) (n : Z) : Z :=
  match xs with
  | [] => n
  | _ :: xs' => distance_loop xs' (n + 1)
  end.

(** [distance_dispatch(first, last, random_access_iterator_tag)]:
    [return last - first;] *)
Definition distance_dispatch_random (first last : nat) : Z :=
  (Z.of_nat last - Z.of_nat first)%Z.

(** [distance(first, last)]: the forward and bidirectional tags derive from
    [input_iterator_tag], so only [random_access_iterator_tag] selects the
    second overload. *)
Definition distance (cat : iterator_tag) (xs : list A) : Z :=
  match cat with
  | random_access_iterator_tag => distance_dispatch_random 0 (length xs)
  | _ => distance_loop xs 0
  end.

(** [initialize_buffer(value, is_trivial)]: nothing for [true_type];
    [ccystl::uninitialized_fill_n(buffer, len, value)] for [false_type]. *)
Definition initialize_buffer (value : A) (trivial : bool) (tb : temporary_buffer)
    (s : st A) : outcome E A unit :=
  if trivial then Normal tt s
  else match uninitialized_fill_n tr ctor 0 (Z.to_nat (len tb)) value s with
       | Normal _ s' => Normal tt s'
       | Thrown e s' => Thrown e s'
       end.

(** The block [buffer] points to, as the destination region: [n] raw slots
    after a successful [malloc]. *)
Definition fresh_block (tb : temporary_buffer) (s : st A) : st A :=
  match buffer tb with
  | Addr _ => set_dst (replicate (Z.to_nat (len tb)) Raw) s
  | _ => s
  end.

(** [temporary_buffer(first, last)] over the input range [xs], with [cat]
    the category of [ForwardIterator]:
    [try { len = distance(first, last); allocate_buffer();
           if (len > 0) initialize_buffer( *first, is_trivially_default_constructible<T>()); }
     catch (...) { free(buffer); buffer = nullptr; len = 0; }] *)
Definition temporary_buffer_ctor (cat : iterator_tag) (xs : list A) (s : st A)
  : temporary_buffer * st A :=
  let tb := allocate_buffer (mk_tb 0 (distance cat xs) Indeterminate) in
  let s1 := fresh_block tb s in
  if Z.ltb 0 (len tb) then
    match xs with
    | x :: _ =>
        match initialize_buffer x (trivially_default_constructible tr) tb s1 with
        | Normal _ s2 => (tb, s2)
        | Thrown _ s2 => (mk_tb (original_len tb) 0 Null, s2)
        end
    | [] => (tb, s1)
    end
  else (tb, s1).

(** [~temporary_buffer()]: [ccystl::destroy(buffer, buffer + len); free(buffer);] *)
Definition temporary_buffer_dtor (tb : temporary_buffer) (s : st A) : st A :=
  destroy tr 0 (Z.to_nat (len tb)) s.

End TemporaryBuffer.

(** ** memory.h: auto_ptr *)

(** Heap objects live at addresses in [live]; [handles] holds the [m_ptr]
    of every [auto_ptr], a handle being identified by its index ([this]). *)
Record heap := mk_heap {
  live : gset positive;
  handles : list ptr
}.

Module AutoPtr.

(** [delete p] *)
Definition delete_obj (p : ptr) (h : heap) : heap :=
  match p with
  | Addr a => mk_heap (live h ∖ {[a]}) (handles h)
  | _ => h
  end.

(** [get()] of handle [i]. *)
Definition get (i : nat) (h : heap) : ptr :=
  match handles h !! i with
  | Some p => p
  | None => Null
  end.

Definition set_ptr (i : nat) (p : ptr) (h : heap) : heap :=
  mk_heap (live h) (<[i := p]> (handles h)).

(** [explicit auto_ptr(T* p = nullptr) : m_ptr(p)]: a new handle. *)
Definition make (p : ptr) (h : heap) : heap :=
  mk_heap (live h) (handles h ++ [p]).

(** [T* release() { T* tmp = m_ptr; m_ptr = nullptr; return tmp; }] *)
Definition release (i : nat) (h : heap) : ptr * heap :=
  let tmp := get i h in (tmp, set_ptr i Null h).

(** [auto_ptr(auto_ptr& rhs) : m_ptr(rhs.release())]: the new handle. *)
Definition copy_ctor (j : nat) (h : heap) : heap :=
  let '(p, h') := release j h in make p h'.

(** [auto_ptr& operator=(const auto_ptr& rhs)]:
    [if (this != &rhs) { delete m_ptr; m_ptr = rhs.release(); }].  Its body
    calls the non-const [release()] on a const reference, so it does not
    compile once used; between two non-const [auto_ptr<T>] lvalues overload
    resolution picks the template below, [assign_from]. *)
Definition assign (i j : nat) (h : heap) : heap :=
  if decide (i = j) then h
  else let h1 := delete_obj (get i h) h in
       let '(p, h2) := release j h1 in
       set_ptr i p h2.

(** [template <class U> auto_ptr& operator=(auto_ptr<U>& rhs)]:
    [if (this->get() != rhs.get()) { delete m_ptr; m_ptr = rhs.release(); }] *)
Definition assign_from (i j : nat) (h : heap) : heap :=
  if decide (get i h = get j h) then h
  else let h1 := delete_obj (get i h) h in
       let '(p, h2) := release j h1 in
       set_ptr i p h2.

(** [void reset(T* p = nullptr)]:
    [if (m_ptr != p) { delete m_ptr; m_ptr = p; }] *)
Definition reset (i : nat) (p : ptr) (h : heap) : heap :=
  if decide (get i h = p) then h
  else set_ptr i p (delete_obj (get i h) h).

(** [~auto_ptr() { delete m_ptr; }] *)
Definition dtor (i : nat) (h : heap) : heap := delete_obj (get i h) h.

End AutoPtr.

(** ** allocator.h (src/unnamed/part_008) *)

Module Allocator.

(** Result of [allocate]: a pointer, or [std::bad_alloc] thrown by
    [::operator new]. *)
Inductive alloc_result : Type :=
| Allocated (p : ptr)
| BadAlloc.

Section Alloc.
Variable sizeof_T : Z.
(** [::operator new(bytes)]: [Some a], or [None] when it throws. *)
Variable operator_new : Z -> option positive.

(** [size_type] is [size_t], a 64-bit unsigned integer: [n * sizeof(T)] is
    computed modulo [2^64]. *)
Definition size_t_mul (n : N) (m : Z) : Z := ((Z.of_N n * m) mod 2 ^ 64)%Z.

(** [static T* allocate(size_type n)] over the set of allocated blocks:
    [if (n == 0) return nullptr; return ::operator new(n * sizeof(T));] *)
Definition allocate (n : N) (blocks : gset positive) : alloc_result * gset positive :=
  if N.eqb n 0 then (Allocated Null, blocks)
  else match operator_new (size_t_mul n sizeof_T) with
       | Some a => (Allocated (Addr a), {[a]} ∪ blocks)
       | None => (BadAlloc, blocks)
       end.

(** [static T* allocate()]: [::operator new(sizeof(T))], with no zero check. *)
Definition allocate1 (blocks : gset positive) : alloc_result * gset positive :=
  match operator_new sizeof_T with
  | Some a => (Allocated (Addr a), {[a]} ∪ blocks)
  | None => (BadAlloc, blocks)
  end.

(** [static void deallocate(T* ptr, size_type)]:
    [if (ptr == nullptr) return; ::operator delete(ptr);] *)
Definition deallocate (p : ptr) (n : N) (blocks : gset positive) : gset positive :=
  match p with
  | Null => blocks
  | Addr a => blocks ∖ {[a]}
  | Indeterminate => blocks   (* not a pointer [allocate] returns *)
  end.

(** [static void deallocate(T* ptr)]: same null check. *)
Definition deallocate1 (p : ptr) (blocks : gset positive) : gset positive :=
  match p with
  | Null => blocks
  | Addr a => blocks ∖ {[a]}
  | Indeterminate => blocks
  end.

End Alloc.
End Allocator.

(** ** Closed forms used in the statements *)

(** [d] with the slots of positions [first, last) raw. *)
Definition raw_range {A : Type} (first last : nat) (d : list (slot A)) : list (slot A) :=
  imap (fun i x => if decide (first <= i < last) then Raw else x) d.

(** [d] with the slots of positions [result, result + length xs) live with
    the values of [xs], in order. *)
Definition live_range {A : Type} (result : nat) (xs : list A) (d : list (slot A))
  : list (slot A) :=
  imap (fun i x => if decide (result <= i < result + length xs)
                   then match xs !! (i - result) with Some v => Live v | None => x end
                   else x) d.

(** [x] with the elements of positions [first, first + n) moved-from. *)
Definition moved_range {A : Type} (mv : A -> A) (first n : nat) (x : list A) : list A :=
  imap (fun i y => if decide (first <= i < first + n) then mv y else y) x.

(** Ownership invariant of the [auto_ptr]s: no two handles hold the same
    object, every object a handle holds is live, and no handle holds an
    indeterminate pointer. *)
Definition owns_exclusively (h : heap) : Prop :=
  (forall i j a, i <> j -> AutoPtr.get i h = Addr a -> AutoPtr.get j h = Addr a -> False) /\
  (forall i a, AutoPtr.get i h = Addr a -> a ∈ live h) /\
  (forall i, AutoPtr.get i h <> Indeterminate).

(** ** Concrete instances *)

(** A type none of whose lifecycle operations is trivial. *)
Definition nontrivial_traits : traits := mk_traits false false false false.
(** A type all of whose lifecycle operations are trivial. *)
Definition trivial_traits : traits := mk_traits true true true true.
(** The [k]-th constructor call throws the exception object [42]. *)
Definition throw_at (k c : nat) : option nat := if Nat.eqb c k then Some 42 else None.
(** [malloc] succeeds, at address 1, for blocks of at most [lim] bytes. *)
Definition malloc_upto (lim bytes : Z) : option positive :=
  if Z.leb bytes lim then Some 1%positive else None.

(** [n] raw destination slots, an empty source, no calls made yet. *)
Definition raw_region (n : nat) : st nat := mk_st [] (replicate n Raw) [] 0.
(** No constructor call throws. *)
Definition never_throws (c : nat) : option nat := None.

(** Object 1 owned by handle 0, object 2 live, handle 1 empty. *)
Definition two_handles : heap := mk_heap {[1%positive; 2%positive]} [Addr 1; Null].

(** * Proofs *)

Section DestroyProofs.
Context {A : Type}.

Lemma raw_range_empty (first : nat) (d : list (slot A)) :
  raw_range first first d = d.
Proof.
  apply list_eq; intros j. unfold raw_range. rewrite list_lookup_imap.
  destruct (d !! j); simpl; [case_decide; [lia|reflexivity]|reflexivity].
Qed.

Lemma raw_range_insert (first k : nat) (d : list (slot A)) :
  raw_range (S first) (S first + k) (<[first := Raw]> d) = raw_range first (first + S k) d.
Proof.
  apply list_eq; intros j. unfold raw_range.
  rewrite !list_lookup_imap, list_lookup_insert.
  destruct (decide (first = j /\ first < length d)) as [[<- Hl]|Hn].
  - destruct (lookup_lt_is_Some_2 d first Hl) as [x Hx]. rewrite Hx. simpl.
    repeat case_decide; try lia; reflexivity.
  - destruct (d !! j) eqn:Hj; simpl; [|reflexivity].
    assert (j < length d) by (eapply lookup_lt_Some; eauto).
    assert (first <> j) by (intros ->; apply Hn; split; auto).
    repeat case_decide; try reflexivity; lia.
Qed.

Lemma destroy_loop_closed (tr : traits) (k first : nat) (s : st A) :
  trivially_destructible tr = false ->
  destroy_loop tr k first s =
  mk_st (src s) (raw_range first (first + k) (dst s))
        (log s ++ map Destroyed (seq first k)) (calls s).
Proof.
  intros Htr. revert first s. induction k as [|k IH]; intros first s; simpl.
  - rewrite Nat.add_0_r, raw_range_empty, app_nil_r. destruct s; reflexivity.
  - rewrite IH. unfold destroy_ptr, destroy_one. rewrite Htr. simpl.
    replace (S (first + k)) with (S first + k) by lia.
    rewrite raw_range_insert, <- app_assoc. reflexivity.
Qed.

Lemma destroy_trivial (tr : traits) (first last : nat) (s : st A) :
  trivially_destructible tr = true -> destroy tr first last s = s.
Proof. intros H. unfold destroy, destroy_cat. rewrite H. reflexivity. Qed.

End DestroyProofs.

Section RangeProofs.
Context {A : Type}.

Lemma raw_range_bounds (first last : nat) (d : list (slot A)) :
  raw_range first (first + (last - first)) d = raw_range first last d.
Proof.
  apply list_eq; intros j. unfold raw_range. rewrite !list_lookup_imap.
  destruct (d !! j); simpl; [|reflexivity]. repeat case_decide; try reflexivity; lia.
Qed.

Lemma live_range_nil (r : nat) (d : list (slot A)) : live_range r [] d = d.
Proof.
  apply list_eq; intros j. unfold live_range. rewrite list_lookup_imap.
  destruct (d !! j); simpl; [case_decide; [simpl in *; lia|reflexivity]|reflexivity].
Qed.

Lemma live_range_cons (r : nat) (x : A) (xs : list A) (d : list (slot A)) :
  live_range (S r) xs (<[r := Live x]> d) = live_range r (x :: xs) d.
Proof.
  apply list_eq; intros j. unfold live_range.
  rewrite !list_lookup_imap, list_lookup_insert.
  destruct (decide (r = j /\ r < length d)) as [[<- Hl]|Hn].
  - destruct (lookup_lt_is_Some_2 d r Hl) as [y Hy]. rewrite Hy. simpl.
    rewrite Nat.sub_diag. repeat case_decide; simpl in *; try lia; reflexivity.
  - destruct (d !! j) eqn:Hj; simpl; [|reflexivity].
    assert (j < length d) by (eapply lookup_lt_Some; eauto).
    assert (r <> j) by (intros ->; apply Hn; split; auto).
    f_equal. simpl in *. repeat case_decide; try lia; try reflexivity.
    replace (j - r) with (S (j - S r)) by lia. reflexivity.
Qed.

Lemma live_range_lookup_in (r : nat) (ys : list A) (d : list (slot A)) (i : nat) :
  r + i < length d -> i < length ys -> live_range r ys d !! (r + i) = Live <$> ys !! i.
Proof.
  intros Hd Hy. unfold live_range. rewrite list_lookup_imap.
  destruct (lookup_lt_is_Some_2 d (r + i) Hd) as [x Hx]. rewrite Hx.
  destruct (lookup_lt_is_Some_2 ys i Hy) as [v Hv]. rewrite Hv. simpl.
  case_decide; [|lia]. replace (r + i - r) with i by lia. rewrite Hv. reflexivity.
Qed.

Lemma live_range_lookup_out (r : nat) (ys : list A) (d : list (slot A)) (j : nat) :
  ~(r <= j < r + length ys) -> live_range r ys d !! j = d !! j.
Proof.
  intros Hj. unfold live_range. rewrite list_lookup_imap.
  destruct (d !! j); simpl; [case_decide; [lia|reflexivity]|reflexivity].
Qed.

Lemma flat_write_closed (xs : list A) (r : nat) (s : st A) :
  flat_write xs r s = (r + length xs, set_dst (live_range r xs (dst s)) s).
Proof.
  revert r s; induction xs as [|x xs IH]; intros r s; simpl.
  - rewrite Nat.add_0_r, live_range_nil. destruct s; reflexivity.
  - rewrite IH. simpl. rewrite live_range_cons.
    replace (r + S (length xs)) with (S (r + length xs)) by lia. reflexivity.
Qed.

End RangeProofs.

Section CopyProofs.
Context {A E : Type}.

Lemma copy_n_loop_no_throw (ctor : nat -> option E) (n : nat) (xs : list A)
    (cur : nat) (s : st A) :
  (forall c, ctor c = None) -> n <= length xs ->
  copy_n_loop ctor n xs cur s =
  Done (cur + n) (mk_st (src s) (live_range cur (take n xs) (dst s))
                        (log s ++ map Constructed (seq cur n)) (calls s + n)).
Proof.
  intros Hc. revert xs cur s. induction n as [|n IH]; intros xs cur s Hn; simpl.
  - rewrite take_0, live_range_nil, !Nat.add_0_r, app_nil_r. destruct s; reflexivity.
  - destruct xs as [|x xs]; simpl in Hn; [lia|].
    unfold construct. rewrite Hc. rewrite IH by lia. simpl.
    rewrite live_range_cons, <- app_assoc. f_equal; [lia|]. f_equal. lia.
Qed.

End CopyProofs.

Section ClaimDestroy.
Context {A : Type}.

(** C8: [destroy(first, last)] on a type that is not trivially destructible
    calls the destructor of every slot of [first, last) in forward order
    (the log gains [Destroyed first], ..., [Destroyed (last - 1)] and those
    slots become raw); on a trivially destructible type it does nothing.
    Hence destroying an already destroyed (raw) slot of a trivially
    destructible type, by [destroy(ptr)] or by [destroy(first, last)], is a
    no-op. *)
Theorem destroy_forward_or_noop (tr : traits) (first last i : nat) (s : st A) :
  destroy tr first last s =
    (if trivially_destructible tr then s
     else mk_st (src s) (raw_range first last (dst s))
                (log s ++ map Destroyed (seq first (last - first))) (calls s)) /\
  (trivially_destructible tr = true -> dst s !! i = Some Raw ->
     destroy_ptr tr i s = s /\ destroy tr i (S i) s = s).
Proof.
  split.
  - unfold destroy, destroy_cat. destruct (trivially_destructible tr) eqn:Htr; [reflexivity|].
    rewrite destroy_loop_closed by exact Htr. rewrite raw_range_bounds. reflexivity.
  - intros Htr _. split.
    + unfold destroy_ptr, destroy_one. rewrite Htr. reflexivity.
    + apply destroy_trivial. exact Htr.
Qed.

End ClaimDestroy.

Section ClaimCopyN.
Context {A E : Type}.

(** C5: when no copy construction throws (the case of a trivially copyable
    [T]), [uninitialized_copy_n(first, n, result)] over an input range of at
    least [n] elements, into a destination with room for [n] slots, returns
    [result + n], leaves slot [result + i] live with a copy of source element
    [i] for every [i < n], and changes no other slot and no source element;
    this holds on both dispatch paths. *)
Theorem uninitialized_copy_n_copies (tr : traits) (ctor : nat -> option E)
    (xs : list A) (n result : nat) (s : st A) :
  (forall c, ctor c = None) ->
  n <= length xs ->
  result + n <= length (dst s) ->
  exists s', uninitialized_copy_n tr ctor xs n result s = Normal (result + n) s' /\
    (forall i, i < n -> dst s' !! (result + i) = Live <$> xs !! i) /\
    (forall j, ~(result <= j < result + n) -> dst s' !! j = dst s !! j) /\
    src s' = src s.
Proof.
  intros Hc Hn Hd.
  assert (Hlen : length (take n xs) = n) by (rewrite length_take; lia).
  assert (Hdst : forall s' : st A, dst s' = live_range result (take n xs) (dst s) ->
    (forall i, i < n -> dst s' !! (result + i) = Live <$> xs !! i) /\
    (forall j, ~(result <= j < result + n) -> dst s' !! j = dst s !! j)).
  { intros s' ->. split.
    - intros i Hi. rewrite live_range_lookup_in by lia.
      rewrite lookup_take_lt by lia. reflexivity.
    - intros j Hj. apply live_range_lookup_out. lia. }
  unfold uninitialized_copy_n. destruct (trivially_copy_assignable tr).
  - rewrite flat_write_closed, Hlen.
    exists (set_dst (live_range result (take n xs) (dst s)) s). split; [reflexivity|].
    destruct (Hdst (set_dst (live_range result (take n xs) (dst s)) s) eq_refl) as [H1 H2]. split; [exact H1|split; [exact H2|reflexivity]].
  - unfold unchecked_uninit_copy_n_nontrivial.
    rewrite (copy_n_loop_no_throw ctor n xs result s Hc Hn).
    eexists; split; [reflexivity|].
    destruct (Hdst (mk_st (src s) (live_range result (take n xs) (dst s))
                          (log s ++ map Constructed (seq result n)) (calls s + n)) eq_refl)
      as [H1 H2].
    split; [exact H1|split; [exact H2|reflexivity]].
Qed.

End ClaimCopyN.

Lemma destroy_forward_or_noop_witness :
  trivially_destructible trivial_traits = true /\ dst (raw_region 2) !! 1 = Some Raw /\
  destroy_ptr trivial_traits 1 (raw_region 2) = raw_region 2 /\
  destroy trivial_traits 1 2 (raw_region 2) = raw_region 2.
Proof.
  split; [reflexivity|]. split; [reflexivity|].
  apply (proj2 (destroy_forward_or_noop trivial_traits 0 0 1 (raw_region 2)));
    reflexivity.
Defined.

Lemma uninitialized_copy_n_copies_witness :
  (forall c, never_throws c = None) /\ 3 <= length [1; 2; 3] /\
  0 + 3 <= length (dst (raw_region 3)) /\
  exists s', uninitialized_copy_n nontrivial_traits never_throws [1; 2; 3] 3 0 (raw_region 3)
               = Normal (0 + 3) s' /\
    (forall i, i < 3 -> dst s' !! (0 + i) = Live <$> [1; 2; 3] !! i) /\
    (forall j, ~(0 <= j < 0 + 3) -> dst s' !! j = dst (raw_region 3) !! j) /\
    src s' = src (raw_region 3).
Proof.
  split; [intros; reflexivity|]. split; [simpl; lia|]. split; [simpl; lia|].
  apply (uninitialized_copy_n_copies nontrivial_traits never_throws [1; 2; 3] 3 0
           (raw_region 3)); [intros; reflexivity|simpl; lia|simpl; lia].
Defined.

Section NoRethrow.
Context {A E : Type}.

(** Five of the six bulk operations return normally whatever the
    constructors do: their handlers have no [throw;]. *)
Lemma bulk_ops_never_throw (tr : traits) (ctor : nat -> option E) (mv : A -> A)
    (xs : list A) (first last n result : nat) (value : A) (s : st A) :
  (exists r s', uninitialized_copy tr ctor xs result s = Normal r s') /\
  (exists r s', uninitialized_copy_n tr ctor xs n result s = Normal r s') /\
  (exists r s', uninitialized_fill tr ctor first last value s = Normal r s') /\
  (exists r s', uninitialized_fill_n tr ctor first n value s = Normal r s') /\
  (exists r s', uninitialized_move tr ctor mv first last result s = Normal r s').
Proof.
  unfold uninitialized_copy, uninitialized_copy_n, uninitialized_fill,
    uninitialized_fill_n, uninitialized_move,
    unchecked_uninit_copy_nontrivial, unchecked_uninit_copy_n_nontrivial,
    unchecked_uninit_fill_nontrivial, unchecked_uninit_fill_n_nontrivial,
    unchecked_uninit_move_nontrivial.
  repeat split;
    repeat match goal with
    | |- context [if ?b then _ else _] => destruct b
    | |- context [match ?t with Done _ _ => _ | Broke _ _ _ => _ end] => destruct t
    | |- context [let '(_, _) := ?t in _] => destruct t
    end; eauto.
Qed.

End NoRethrow.

(** C1 (failing input): [uninitialized_copy] of [10; 20] into two raw slots of
    a type with no trivial operation whose second copy construction ([k = 1])
    throws.  The handler [for (; result != cur; --cur) destroy(&*cur);]
    destroys slot 1, the slot whose construction failed, and never slot 0,
    which stays live; [uninitialized_copy_n] does the same. *)
Theorem uninitialized_copy_rollback_off_by_one :
  uninitialized_copy nontrivial_traits (throw_at 1) [10; 20] 0 (raw_region 2) =
    Normal 0 (mk_st [] [Live 10; Raw] [Constructed 0; Destroyed 1] 2) /\
  uninitialized_copy_n nontrivial_traits (throw_at 1) [10; 20] 2 0 (raw_region 2) =
    Normal 0 (mk_st [] [Live 10; Raw] [Constructed 0; Destroyed 1] 2).
Proof. split; reflexivity. Qed.

(** C2 (failing input): [uninitialized_fill_n] of one slot whose copy
    construction throws [42] rolls back and then returns normally (position
    0): the exception is swallowed.  [uninitialized_move_n] alone rethrows:
    moving one element whose move construction throws [42] ends in
    [Thrown 42]. *)
Theorem uninitialized_fill_n_swallows_failure :
  uninitialized_fill_n nontrivial_traits (throw_at 0) 0 1 5 (raw_region 1) =
    Normal 0 (mk_st [] [Raw] [] 1) /\
  uninitialized_move_n nontrivial_traits (throw_at 0) id 0 1 0 (mk_st [5] [Raw] [] 0) =
    Thrown 42 (mk_st [5] [Raw] [] 1).
Proof. split; reflexivity. Qed.

(** C3 (failing input): a [temporary_buffer] over an empty range: [len] is
    0, the halving loop never runs, and [buffer] is never assigned, so the
    granted length 0 comes with an indeterminate block, not a null one;
    [get_buffer_helper(0)] does return [(nullptr, 0)]. *)
Theorem temporary_buffer_empty_request_block :
  temporary_buffer_ctor nontrivial_traits (throw_at 0) 4 (malloc_upto 100)
      random_access_iterator_tag []
      (raw_region 0) = (mk_tb 0 0 Indeterminate, raw_region 0) /\
  get_buffer_helper 4 (malloc_upto 100) 0 = (Null, 0%Z).
Proof. split; reflexivity. Qed.

(** C4 (failing input): a [temporary_buffer] of a type with no trivial
    operation over [7; 7], whose second copy construction throws.  The
    allocation grants 2 slots; [uninitialized_fill_n] constructs slot 0,
    fails on slot 1, destroys slot 0 and returns normally, so the buffer is
    acquired with granted length 2 while neither slot is initialized. *)
Theorem temporary_buffer_granted_but_raw :
  temporary_buffer_ctor nontrivial_traits (throw_at 1) 4 (malloc_upto 100)
      random_access_iterator_tag [7; 7]
      (raw_region 0) =
    (mk_tb 2 2 (Addr 1), mk_st [] [Raw; Raw] [Constructed 0; Destroyed 0] 2).
Proof. reflexivity. Qed.

(** C9: [allocate(0)] returns [nullptr] without calling [::operator new] or
    reporting an error, and both [deallocate(nullptr, n)] and
    [deallocate(nullptr)] leave the allocated blocks unchanged. *)
Theorem allocate_zero_deallocate_null (sizeof_T : Z) (operator_new : Z -> option positive)
    (n : N) (blocks : gset positive) :
  Allocator.allocate sizeof_T operator_new 0 blocks = (Allocator.Allocated Null, blocks) /\
  Allocator.deallocate Null n blocks = blocks /\
  Allocator.deallocate1 Null blocks = blocks.
Proof. repeat split. Qed.

(** C10 (failing input): the same construction as in C4.  The failure of
    the second copy construction never reaches the constructor's handler
    ([uninitialized_fill_n] swallows it), so the buffer is left with block
    [Addr 1] and length 2, not null and 0; its teardown then runs the
    destructor on slots 0 and 1, both raw. *)
Theorem temporary_buffer_failure_not_absorbed :
  let '(tb, s) :=
    temporary_buffer_ctor nontrivial_traits (throw_at 1) 4 (malloc_upto 100)
      random_access_iterator_tag [7; 7]
      (raw_region 0) in
  buffer tb = Addr 1 /\ len tb = 2%Z /\
  temporary_buffer_dtor nontrivial_traits tb s =
    mk_st [] [Raw; Raw] [Constructed 0; Destroyed 0; Destroyed 0; Destroyed 1] 2.
Proof. simpl. repeat split. Qed.

Section AutoPtrProofs.

Lemma auto_ptr_get_set_eq (i : nat) (p : ptr) (h : heap) :
  i < length (handles h) -> AutoPtr.get i (AutoPtr.set_ptr i p h) = p.
Proof.
  intros Hi. unfold AutoPtr.get, AutoPtr.set_ptr. simpl.
  rewrite list_lookup_insert_eq by exact Hi. reflexivity.
Qed.

Lemma auto_ptr_get_set_ne (i k : nat) (p : ptr) (h : heap) :
  i <> k -> AutoPtr.get k (AutoPtr.set_ptr i p h) = AutoPtr.get k h.
Proof.
  intros Hik. unfold AutoPtr.get, AutoPtr.set_ptr. simpl.
  rewrite list_lookup_insert_ne by exact Hik. reflexivity.
Qed.

Lemma auto_ptr_handles_delete (p : ptr) (h : heap) :
  handles (AutoPtr.delete_obj p h) = handles h.
Proof. destruct p; reflexivity. Qed.

Lemma auto_ptr_get_delete (k : nat) (p : ptr) (h : heap) :
  AutoPtr.get k (AutoPtr.delete_obj p h) = AutoPtr.get k h.
Proof. unfold AutoPtr.get. rewrite auto_ptr_handles_delete. reflexivity. Qed.

Lemma auto_ptr_length_set (i : nat) (p : ptr) (h : heap) :
  length (handles (AutoPtr.set_ptr i p h)) = length (handles h).
Proof. unfold AutoPtr.set_ptr. simpl. apply length_insert. Qed.

Lemma auto_ptr_get_make_new (p : ptr) (h : heap) :
  AutoPtr.get (length (handles h)) (AutoPtr.make p h) = p.
Proof.
  unfold AutoPtr.get, AutoPtr.make. simpl.
  rewrite lookup_app_r by lia. rewrite Nat.sub_diag. reflexivity.
Qed.

Lemma auto_ptr_get_make_old (k : nat) (p : ptr) (h : heap) :
  k < length (handles h) -> AutoPtr.get k (AutoPtr.make p h) = AutoPtr.get k h.
Proof.
  intros Hk. unfold AutoPtr.get, AutoPtr.make. simpl.
  rewrite lookup_app_l by exact Hk. reflexivity.
Qed.

Lemma auto_ptr_live_delete (p : ptr) (h : heap) :
  live (AutoPtr.delete_obj p h) =
  match p with Addr a => live h ∖ {[a]} | _ => live h end.
Proof. destruct p; reflexivity. Qed.

End AutoPtrProofs.

(** C6: [release()] on handle [i] returns the pointer the handle held and
    leaves the handle empty, deleting nothing; on an empty handle it returns
    [nullptr] (there is no error outcome).  The copy constructor
    [auto_ptr b(a)] takes [a.release()]: afterwards the new handle [b] owns
    exactly what [a] owned, [a] is empty, and no object is deleted. *)
Theorem auto_ptr_release_transfer (i : nat) (h : heap) :
  i < length (handles h) ->
  fst (AutoPtr.release i h) = AutoPtr.get i h /\
  AutoPtr.get i (snd (AutoPtr.release i h)) = Null /\
  live (snd (AutoPtr.release i h)) = live h /\
  (AutoPtr.get i h = Null -> fst (AutoPtr.release i h) = Null) /\
  AutoPtr.get (length (handles h)) (AutoPtr.copy_ctor i h) = AutoPtr.get i h /\
  AutoPtr.get i (AutoPtr.copy_ctor i h) = Null /\
  live (AutoPtr.copy_ctor i h) = live h.
Proof.
  intros Hi. unfold AutoPtr.copy_ctor, AutoPtr.release. simpl.
  split; [reflexivity|]. split; [apply auto_ptr_get_set_eq; exact Hi|].
  split; [reflexivity|]. split; [intros H; exact H|].
  split.
  - rewrite <- (auto_ptr_length_set i Null h). apply auto_ptr_get_make_new.
  - split; [|reflexivity].
    rewrite auto_ptr_get_make_old by (rewrite auto_ptr_length_set; exact Hi).
    apply auto_ptr_get_set_eq. exact Hi.
Qed.

Lemma auto_ptr_release_transfer_witness :
  0 < length (handles two_handles) /\
  fst (AutoPtr.release 0 two_handles) = AutoPtr.get 0 two_handles /\
  AutoPtr.get 0 (snd (AutoPtr.release 0 two_handles)) = Null /\
  live (snd (AutoPtr.release 0 two_handles)) = live two_handles /\
  (AutoPtr.get 0 two_handles = Null -> fst (AutoPtr.release 0 two_handles) = Null) /\
  AutoPtr.get (length (handles two_handles)) (AutoPtr.copy_ctor 0 two_handles) =
    AutoPtr.get 0 two_handles /\
  AutoPtr.get 0 (AutoPtr.copy_ctor 0 two_handles) = Null /\
  live (AutoPtr.copy_ctor 0 two_handles) = live two_handles.
Proof.
  split; [simpl; lia|]. apply (auto_ptr_release_transfer 0 two_handles). simpl; lia.
Defined.

Section BufferProofs.
Variable sizeof_T : Z.
Variable malloc : Z -> option positive.

Lemma halving_alloc_spec (p : positive) :
  let '(b, g) := halving_alloc sizeof_T malloc p in
  (b = Null /\ g = 0%Z) \/
  (exists (j : nat) (a : positive),
     g = (Z.pos p / 2 ^ Z.of_nat j)%Z /\ (0 < g)%Z /\ b = Addr a /\
     malloc (g * sizeof_T)%Z = Some a).
Proof.
  induction p as [q IH|q IH|]; simpl; destruct (malloc _) as [a|] eqn:Hm.
  - right. exists 0, a. simpl. rewrite Z.div_1_r. repeat split; auto; lia.
  - destruct (halving_alloc sizeof_T malloc q) as [b g].
    destruct IH as [IH|(j & a & Hg & Hpos & Hb & Hma)]; [left; exact IH|].
    right. exists (S j), a. split; [|auto]. rewrite Hg.
    assert (H2 : (Z.pos q~1 / 2 = Z.pos q)%Z)
      by (rewrite Pos2Z.inj_xI; Z.div_mod_to_equations; lia).
    rewrite Nat2Z.inj_succ, Z.pow_succ_r by lia.
    rewrite <- Z.div_div by (try apply Z.pow_pos_nonneg; lia). rewrite H2. reflexivity.
  - right. exists 0, a. simpl. rewrite Z.div_1_r. repeat split; auto; lia.
  - destruct (halving_alloc sizeof_T malloc q) as [b g].
    destruct IH as [IH|(j & a & Hg & Hpos & Hb & Hma)]; [left; exact IH|].
    right. exists (S j), a. split; [|auto]. rewrite Hg.
    assert (H2 : (Z.pos q~0 / 2 = Z.pos q)%Z)
      by (rewrite Pos2Z.inj_xO; Z.div_mod_to_equations; lia).
    rewrite Nat2Z.inj_succ, Z.pow_succ_r by lia.
    rewrite <- Z.div_div by (try apply Z.pow_pos_nonneg; lia). rewrite H2. reflexivity.
  - right. exists 0, a. simpl. repeat split; auto.
  - left. split; reflexivity.
Qed.

Lemma clamp_len_spec (l : Z) : clamp_len sizeof_T l = Z.min l (INT_MAX / sizeof_T).
Proof.
  unfold clamp_len. set (m := (INT_MAX / sizeof_T)%Z).
  rewrite Z.gtb_ltb. destruct (Z.ltb_spec m l); lia.
Qed.

(** [get_buffer_helper(len)] never fails: it returns [(nullptr, 0)], or a
    block from [malloc] whose positive length is the clamped request
    [min(len, INT_MAX / sizeof(T))] halved [j] times. *)
Lemma get_buffer_helper_spec (l : Z) :
  let '(b, g) := get_buffer_helper sizeof_T malloc l in
  (b = Null /\ g = 0%Z) \/
  (exists (j : nat) (a : positive),
     g = (Z.min l (INT_MAX / sizeof_T) / 2 ^ Z.of_nat j)%Z /\ (0 < g)%Z /\ b = Addr a /\
     malloc (g * sizeof_T)%Z = Some a).
Proof.
  unfold get_buffer_helper. rewrite <- clamp_len_spec.
  destruct (clamp_len sizeof_T l) as [|p|p].
  - left. split; reflexivity.
  - apply halving_alloc_spec.
  - left. split; reflexivity.
Qed.

(** [allocate_buffer] records the request and, for a positive clamped
    request, grants what [get_buffer_helper] grants. *)
Lemma allocate_buffer_as_helper (tb : temporary_buffer) :
  original_len (allocate_buffer sizeof_T malloc tb) = len tb /\
  ((0 < clamp_len sizeof_T (len tb))%Z ->
   (buffer (allocate_buffer sizeof_T malloc tb), len (allocate_buffer sizeof_T malloc tb)) =
   get_buffer_helper sizeof_T malloc (len tb)).
Proof.
  unfold allocate_buffer, get_buffer_helper.
  destruct (clamp_len sizeof_T (len tb)) as [|p|p]; simpl; try (split; [reflexivity|lia]).
  destruct (halving_alloc sizeof_T malloc p); split; reflexivity.
Qed.

Lemma allocate_buffer_pos (tb : temporary_buffer) :
  (0 < len (allocate_buffer sizeof_T malloc tb))%Z ->
  exists a, buffer (allocate_buffer sizeof_T malloc tb) = Addr a.
Proof.
  unfold allocate_buffer. destruct (clamp_len sizeof_T (len tb)) as [|p|p];
    simpl; try (intros; exfalso; lia).
  pose proof (halving_alloc_spec p) as H.
  destruct (halving_alloc sizeof_T malloc p) as [b g]. simpl.
  destruct H as [[-> ->]|(j & a & _ & _ & -> & _)]; [intros; exfalso; lia|eauto].
Qed.

End BufferProofs.

Section FillProofs.
Context {A E : Type}.

Lemma fill_loop_no_throw (ctor : nat -> option E) (n : nat) (value : A) (cur : nat)
    (s : st A) :
  (forall c, ctor c = None) ->
  fill_loop ctor n value cur s =
  Done (cur + n) (mk_st (src s) (live_range cur (replicate n value) (dst s))
                        (log s ++ map Constructed (seq cur n)) (calls s + n)).
Proof.
  intros Hc. revert cur s. induction n as [|n IH]; intros cur s; simpl.
  - rewrite live_range_nil, !Nat.add_0_r, app_nil_r. destruct s; reflexivity.
  - unfold construct. rewrite Hc, IH. simpl.
    rewrite live_range_cons, <- app_assoc. f_equal; [lia|]. f_equal. lia.
Qed.

Lemma fill_loop_throw_at (ctor : nat -> option E) (k n : nat) (value : A) (cur : nat)
    (e : E) (s : st A) :
  k < n -> (forall c, c < k -> ctor (calls s + c) = None) -> ctor (calls s + k) = Some e ->
  fill_loop ctor n value cur s =
  Broke e (cur + k) (mk_st (src s) (live_range cur (replicate k value) (dst s))
                           (log s ++ map Constructed (seq cur k)) (calls s + S k)).
Proof.
  revert n cur s. induction k as [|k IH]; intros n cur s Hkn Hok He;
    (destruct n as [|n]; [lia|]); simpl; unfold construct.
  - rewrite Nat.add_0_r in He. rewrite He, live_range_nil, !Nat.add_0_r, app_nil_r.
    rewrite Nat.add_1_r. reflexivity.
  - rewrite <- (Nat.add_0_r (calls s)), Hok by lia. rewrite Nat.add_0_r.
    rewrite (IH n (S cur)); simpl; [| lia | | ].
    + rewrite live_range_cons, <- app_assoc. f_equal; [lia|]. f_equal. lia.
    + intros c Hc. rewrite <- (Hok (S c)) by lia. f_equal. lia.
    + rewrite <- He. f_equal. lia.
Qed.

Lemma raw_range_live_range (r : nat) (ys : list A) (d : list (slot A)) :
  raw_range r (r + length ys) (live_range r ys d) = raw_range r (r + length ys) d.
Proof.
  apply list_eq; intros j. unfold raw_range, live_range. rewrite !list_lookup_imap.
  destruct (d !! j); simpl; [|reflexivity]. repeat case_decide; try reflexivity; lia.
Qed.

Lemma live_range_fill (n : nat) (x : A) :
  live_range 0 (replicate n x) (replicate n Raw) = replicate n (Live x).
Proof.
  apply list_eq; intros j. unfold live_range. rewrite list_lookup_imap.
  destruct (decide (j < n)) as [Hj|Hj].
  - rewrite !lookup_replicate_2 by lia. simpl.
    rewrite length_replicate. case_decide; [reflexivity|lia].
  - rewrite !lookup_ge_None_2 by (rewrite length_replicate; lia). reflexivity.
Qed.

(** The rollback of [uninitialized_fill_n] (and likewise of [uninitialized_fill],
    [uninitialized_move] and [uninitialized_move_n]) destroys exactly the
    slots [first, first + k) constructed before the failing call [k]: the
    log shows [k] constructions then [k] destructions, and afterwards those
    slots are raw and every other slot is as before. *)
Lemma uninitialized_fill_n_rollback (tr : traits) (ctor : nat -> option E)
    (first n k : nat) (value : A) (e : E) (s : st A) :
  trivially_copy_assignable tr = false -> trivially_destructible tr = false ->
  k < n -> (forall c, c < k -> ctor (calls s + c) = None) -> ctor (calls s + k) = Some e ->
  uninitialized_fill_n tr ctor first n value s =
  Normal (first + k)
    (mk_st (src s) (raw_range first (first + k) (dst s))
           (log s ++ map Constructed (seq first k) ++ map Destroyed (seq first k))
           (calls s + S k)).
Proof.
  intros Hcp Hd Hkn Hok He. unfold uninitialized_fill_n. rewrite Hcp.
  unfold unchecked_uninit_fill_n_nontrivial.
  rewrite (fill_loop_throw_at ctor k n value first e s Hkn Hok He).
  rewrite destroy_loop_closed by exact Hd. simpl.
  replace (first + k - first) with k by lia.
  pose proof (raw_range_live_range first (replicate k value) (dst s)) as Hr.
  rewrite length_replicate in Hr. rewrite Hr, <- app_assoc. reflexivity.
Qed.

End FillProofs.

Section BufferInitProofs.
Context {A E : Type}.

Lemma distance_loop_length (xs : list A) (n : Z) :
  distance_loop xs n = (n + Z.of_nat (length xs))%Z.
Proof.
  revert n. induction xs as [|x xs IH]; intros n; simpl; [lia|]. rewrite IH. lia.
Qed.

(** Both overloads of [distance] count the elements of the range. *)
Lemma distance_length (cat : iterator_tag) (xs : list A) :
  distance cat xs = Z.of_nat (length xs).
Proof.
  destruct cat; unfold distance, distance_dispatch_random;
    rewrite ?distance_loop_length; lia.
Qed.

Lemma initialize_buffer_no_throw (tr : traits) (ctor : nat -> option E) (x : A)
    (trivial : bool) (tb : temporary_buffer) (s : st A) :
  (forall c, ctor c = None) ->
  exists s', initialize_buffer tr ctor x trivial tb s = Normal tt s' /\
    dst s' = if trivial then dst s
             else live_range 0 (replicate (Z.to_nat (len tb)) x) (dst s).
Proof.
  intros Hc. unfold initialize_buffer. destruct trivial; [eexists; split; reflexivity|].
  unfold uninitialized_fill_n. destruct (trivially_copy_assignable tr).
  - rewrite flat_write_closed. eexists; split; reflexivity.
  - unfold unchecked_uninit_fill_n_nontrivial. rewrite fill_loop_no_throw by exact Hc.
    eexists; split; reflexivity.
Qed.

(** When no constructor throws, a [temporary_buffer] acquired with a
    positive length holds a block from [malloc], and its granted slots are
    all live copies of [*first] for a type that is not trivially default
    constructible, all raw otherwise. *)
Lemma temporary_buffer_init_no_throw (tr : traits) (ctor : nat -> option E)
    (sizeof_T : Z) (malloc : Z -> option positive) (cat : iterator_tag) (x : A) (xs : list A)
    (s : st A) :
  (forall c, ctor c = None) ->
  (0 < len (fst (temporary_buffer_ctor tr ctor sizeof_T malloc cat (x :: xs) s)))%Z ->
  (exists a, buffer (fst (temporary_buffer_ctor tr ctor sizeof_T malloc cat (x :: xs) s)) = Addr a) /\
  dst (snd (temporary_buffer_ctor tr ctor sizeof_T malloc cat (x :: xs) s)) =
    replicate (Z.to_nat (len (fst (temporary_buffer_ctor tr ctor sizeof_T malloc cat (x :: xs) s))))
      (if trivially_default_constructible tr then Raw else Live x).
Proof.
  intros Hc. unfold temporary_buffer_ctor.
  set (tb := allocate_buffer sizeof_T malloc (mk_tb 0 (distance cat (x :: xs)) Indeterminate)).
  destruct (Z.ltb_spec 0 (len tb)) as [Hlt|Hge]; [|simpl; intros; exfalso; lia].
  destruct (allocate_buffer_pos sizeof_T malloc _ Hlt) as [a Ha]. fold tb in Ha.
  destruct (initialize_buffer_no_throw tr ctor x (trivially_default_constructible tr) tb
              (fresh_block tb s) Hc) as (s' & Hinit & Hdst).
  rewrite Hinit. simpl. intros _. split; [exists a; exact Ha|].
  rewrite Hdst. unfold fresh_block. rewrite Ha. simpl.
  destruct (trivially_default_constructible tr); [reflexivity|]. apply live_range_fill.
Qed.

End BufferInitProofs.

Section MoreRangeProofs.
Context {A : Type}.

Lemma moved_range_0 (mv : A -> A) (first : nat) (x : list A) : moved_range mv first 0 x = x.
Proof.
  apply list_eq; intros j. unfold moved_range. rewrite list_lookup_imap.
  destruct (x !! j); simpl; [case_decide; [lia|reflexivity]|reflexivity].
Qed.

Lemma moved_range_insert (mv : A -> A) (first n : nat) (x : list A) (y : A) :
  x !! first = Some y ->
  moved_range mv (S first) n (<[first := mv y]> x) = moved_range mv first (S n) x.
Proof.
  intros Hy. apply list_eq; intros j. unfold moved_range.
  rewrite !list_lookup_imap, list_lookup_insert.
  destruct (decide (first = j /\ first < length x)) as [[<- Hl]|Hn].
  - rewrite Hy. simpl. repeat case_decide; try lia; reflexivity.
  - destruct (x !! j) eqn:Hj; simpl; [|reflexivity].
    assert (j < length x) by (eapply lookup_lt_Some; eauto).
    assert (first <> j) by (intros ->; apply Hn; split; auto).
    repeat case_decide; try reflexivity; lia.
Qed.

Lemma take_drop_S (x : list A) (first n : nat) (y : A) :
  x !! first = Some y -> take (S n) (drop first x) = y :: take n (drop (S first) x).
Proof. intros Hy. rewrite (drop_S x y first Hy). reflexivity. Qed.

Lemma raw_range_insert_top (a k : nat) (d : list (slot A)) :
  raw_range a (a + k) (<[a + k := Raw]> d) = raw_range a (a + S k) d.
Proof.
  apply list_eq; intros j. unfold raw_range.
  rewrite !list_lookup_imap, list_lookup_insert.
  destruct (decide (a + k = j /\ a + k < length d)) as [[<- Hl]|Hn].
  - destruct (lookup_lt_is_Some_2 d (a + k) Hl) as [x Hx]. rewrite Hx. simpl.
    repeat case_decide; try lia; reflexivity.
  - destruct (d !! j) eqn:Hj; simpl; [|reflexivity].
    assert (j < length d) by (eapply lookup_lt_Some; eauto).
    assert (a + k <> j) by (intros <-; apply Hn; split; auto).
    repeat case_decide; try reflexivity; lia.
Qed.

Lemma raw_range_split (f m l : nat) (d : list (slot A)) :
  f <= m -> m <= l -> raw_range m l (raw_range f m d) = raw_range f l d.
Proof.
  intros Hfm Hml. apply list_eq; intros j. unfold raw_range. rewrite !list_lookup_imap.
  destruct (d !! j); simpl; [|reflexivity]. repeat case_decide; try reflexivity; lia.
Qed.

Lemma raw_range_id (first last : nat) (d : list (slot A)) :
  (forall i x, first <= i < last -> d !! i = Some x -> x = Raw) ->
  raw_range first last d = d.
Proof.
  intros H. apply list_eq; intros j. unfold raw_range. rewrite list_lookup_imap.
  destruct (d !! j) as [x|] eqn:Hj; simpl; [|reflexivity].
  case_decide; [|reflexivity]. rewrite (H j x) by auto. reflexivity.
Qed.

Lemma destroy_down_closed (tr : traits) (k r : nat) (s : st A) :
  trivially_destructible tr = false ->
  destroy_down tr k (r + k) s =
  (r, mk_st (src s) (raw_range (S r) (S r + k) (dst s))
            (log s ++ rev (map Destroyed (seq (S r) k))) (calls s)).
Proof.
  intros Htr. revert s. induction k as [|k IH]; intros s; cbn [destroy_down].
  - simpl. rewrite Nat.add_0_r, raw_range_empty, app_nil_r. destruct s; reflexivity.
  - replace (pred (r + S k)) with (r + k) by lia. rewrite IH.
    unfold destroy_ptr, destroy_one. rewrite Htr. cbn [src dst log calls].
    replace (r + S k) with (S r + k) by lia. rewrite raw_range_insert_top.
    rewrite seq_S, map_app, rev_app_distr, <- app_assoc. reflexivity.
Qed.

End MoreRangeProofs.

Section MoreLoopProofs.
Context {A E : Type}.

Lemma copy_loop_no_throw (ctor : nat -> option E) (xs : list A) (cur : nat) (s : st A) :
  (forall c, ctor c = None) ->
  copy_loop ctor xs cur s =
  Done (cur + length xs) (mk_st (src s) (live_range cur xs (dst s))
                                (log s ++ map Constructed (seq cur (length xs)))
                                (calls s + length xs)).
Proof.
  intros Hc. revert cur s. induction xs as [|x xs IH]; intros cur s; simpl.
  - rewrite live_range_nil, !Nat.add_0_r, app_nil_r. destruct s; reflexivity.
  - unfold construct. rewrite Hc, IH. simpl.
    rewrite live_range_cons, <- app_assoc. f_equal; [lia|]. f_equal. lia.
Qed.

Lemma copy_loop_throw_at (ctor : nat -> option E) (k : nat) (xs : list A) (cur : nat)
    (e : E) (s : st A) :
  k < length xs -> (forall c, c < k -> ctor (calls s + c) = None) ->
  ctor (calls s + k) = Some e ->
  copy_loop ctor xs cur s =
  Broke e (cur + k) (mk_st (src s) (live_range cur (take k xs) (dst s))
                           (log s ++ map Constructed (seq cur k)) (calls s + S k)).
Proof.
  revert xs cur s. induction k as [|k IH]; intros xs cur s Hkn Hok He;
    (destruct xs as [|x xs]; [simpl in Hkn; lia|]); simpl; unfold construct.
  - rewrite Nat.add_0_r in He. rewrite He, live_range_nil, !Nat.add_0_r, app_nil_r.
    rewrite Nat.add_1_r. reflexivity.
  - rewrite <- (Nat.add_0_r (calls s)), Hok by lia. rewrite Nat.add_0_r.
    simpl in Hkn. rewrite (IH xs (S cur)); simpl; [| lia | | ].
    + rewrite live_range_cons, <- app_assoc. f_equal; [lia|]. f_equal. lia.
    + intros c Hc. rewrite <- (Hok (S c)) by lia. f_equal. lia.
    + rewrite <- He. f_equal. lia.
Qed.

Lemma move_loop_no_throw (ctor : nat -> option E) (mv : A -> A) (n first cur : nat)
    (s : st A) :
  (forall c, ctor c = None) -> first + n <= length (src s) ->
  move_loop ctor mv n first cur s =
  Done (cur + n) (mk_st (moved_range mv first n (src s))
                        (live_range cur (take n (drop first (src s))) (dst s))
                        (log s ++ map Constructed (seq cur n)) (calls s + n)).
Proof.
  intros Hc. revert first cur s. induction n as [|n IH]; intros first cur s Hn; simpl.
  - rewrite moved_range_0, take_0, live_range_nil, !Nat.add_0_r, app_nil_r. destruct s; reflexivity.
  - destruct (lookup_lt_is_Some_2 (src s) first ltac:(lia)) as [x Hx]. rewrite Hx.
    unfold construct. rewrite Hc. unfold set_src. simpl.
    rewrite IH by (simpl; rewrite length_insert; lia). simpl.
    rewrite moved_range_insert by exact Hx. rewrite drop_insert_lt by lia.
    rewrite live_range_cons, <- app_assoc, (take_drop_S (src s) first n x Hx).
    f_equal; [lia|]. f_equal. lia.
Qed.

Lemma move_loop_throw_at (ctor : nat -> option E) (mv : A -> A) (k n first cur : nat)
    (e : E) (s : st A) :
  k < n -> first + k < length (src s) ->
  (forall c, c < k -> ctor (calls s + c) = None) -> ctor (calls s + k) = Some e ->
  move_loop ctor mv n first cur s =
  Broke e (cur + k) (mk_st (moved_range mv first k (src s))
                           (live_range cur (take k (drop first (src s))) (dst s))
                           (log s ++ map Constructed (seq cur k)) (calls s + S k)).
Proof.
  revert n first cur s. induction k as [|k IH]; intros n first cur s Hkn Hsrc Hok He;
    (destruct n as [|n]; [lia|]); simpl;
    (destruct (lookup_lt_is_Some_2 (src s) first ltac:(lia)) as [x Hx]; rewrite Hx);
    unfold construct.
  - rewrite Nat.add_0_r in He. rewrite He, moved_range_0, take_0, live_range_nil, !Nat.add_0_r, app_nil_r.
    rewrite Nat.add_1_r. reflexivity.
  - rewrite <- (Nat.add_0_r (calls s)), Hok by lia. rewrite Nat.add_0_r.
    unfold set_src. simpl.
    rewrite (IH n (S first) (S cur)); simpl; [| lia | rewrite length_insert; lia | | ].
    + rewrite moved_range_insert by exact Hx. rewrite drop_insert_lt by lia.
      rewrite live_range_cons, <- app_assoc, (take_drop_S (src s) first k x Hx).
      f_equal; [lia|]. f_equal. lia.
    + intros c Hc. rewrite <- (Hok (S c)) by lia. f_equal. lia.
    + rewrite <- He. f_equal. lia.
Qed.

End MoreLoopProofs.

Section BulkOps.
Context {A E : Type}.

(** [uninitialized_copy(first, last, result)] (uninitialized.h, both
    dispatch paths) when no copy construction throws: it returns
    [result + (last - first)], the slots from [result] on hold the input
    values in order, every other slot and the source are unchanged. *)
Theorem uninitialized_copy_copies (tr : traits) (ctor : nat -> option E) (xs : list A)
    (result : nat) (s : st A) :
  (forall c, ctor c = None) ->
  exists s', uninitialized_copy tr ctor xs result s = Normal (result + length xs) s' /\
    dst s' = live_range result xs (dst s) /\ src s' = src s.
Proof.
  intros Hc. unfold uninitialized_copy. destruct (trivially_copy_assignable tr).
  - rewrite flat_write_closed. eexists; split; [reflexivity|split; reflexivity].
  - unfold unchecked_uninit_copy_nontrivial. rewrite copy_loop_no_throw by exact Hc.
    eexists; split; [reflexivity|split; reflexivity].
Qed.

(** The handler of [uninitialized_copy] for a type with no trivial copy or
    destructor, when copy construction [k] throws: after constructing slots
    [result], ..., [result + k - 1] it destroys [result + k], ...,
    [result + 1] in that order, returns [result] normally, and leaves slot
    [result] as the loop made it (live when [k > 0]). *)
Theorem uninitialized_copy_rollback (tr : traits) (ctor : nat -> option E) (xs : list A)
    (result k : nat) (e : E) (s : st A) :
  trivially_copy_assignable tr = false -> trivially_destructible tr = false ->
  k < length xs -> (forall c, c < k -> ctor (calls s + c) = None) ->
  ctor (calls s + k) = Some e ->
  uninitialized_copy tr ctor xs result s =
  Normal result
    (mk_st (src s) (raw_range (S result) (S result + k) (live_range result (take k xs) (dst s)))
           (log s ++ map Constructed (seq result k) ++ rev (map Destroyed (seq (S result) k)))
           (calls s + S k)).
Proof.
  intros Hcp Hd Hk Hok He. unfold uninitialized_copy. rewrite Hcp.
  unfold unchecked_uninit_copy_nontrivial.
  rewrite (copy_loop_throw_at ctor k xs result e s Hk Hok He).
  replace (result + k - result) with k by lia.
  rewrite destroy_down_closed by exact Hd. simpl. rewrite <- app_assoc. reflexivity.
Qed.

(** [uninitialized_fill(first, last, value)] and
    [uninitialized_fill_n(first, n, value)] (both dispatch paths) when no
    copy construction throws: the slots of the range hold [value], every
    other slot and the source are unchanged, and [uninitialized_fill_n]
    returns [first + n]. *)
Theorem uninitialized_fill_fills (tr : traits) (ctor : nat -> option E)
    (first last n : nat) (value : A) (s : st A) :
  (forall c, ctor c = None) ->
  (exists s', uninitialized_fill tr ctor first last value s = Normal tt s' /\
     dst s' = live_range first (replicate (last - first) value) (dst s) /\ src s' = src s) /\
  (exists s', uninitialized_fill_n tr ctor first n value s = Normal (first + n) s' /\
     dst s' = live_range first (replicate n value) (dst s) /\ src s' = src s).
Proof.
  intros Hc. split.
  - unfold uninitialized_fill. destruct (trivially_copy_assignable tr).
    + rewrite flat_write_closed. eexists; split; [reflexivity|split; reflexivity].
    + unfold unchecked_uninit_fill_nontrivial. rewrite fill_loop_no_throw by exact Hc.
      eexists; split; [reflexivity|split; reflexivity].
  - unfold uninitialized_fill_n. destruct (trivially_copy_assignable tr).
    + rewrite flat_write_closed, length_replicate.
      eexists; split; [reflexivity|split; reflexivity].
    + unfold unchecked_uninit_fill_n_nontrivial. rewrite fill_loop_no_throw by exact Hc.
      eexists; split; [reflexivity|split; reflexivity].
Qed.

(** The handler of [uninitialized_fill] for a type with no trivial copy or
    destructor, when copy construction [k] of the [last - first] throws:
    it destroys exactly the slots [first, first + k) built before, in
    forward order, and returns normally. *)
Theorem uninitialized_fill_rollback (tr : traits) (ctor : nat -> option E)
    (first last k : nat) (value : A) (e : E) (s : st A) :
  trivially_copy_assignable tr = false -> trivially_destructible tr = false ->
  k < last - first -> (forall c, c < k -> ctor (calls s + c) = None) ->
  ctor (calls s + k) = Some e ->
  uninitialized_fill tr ctor first last value s =
  Normal tt
    (mk_st (src s) (raw_range first (first + k) (dst s))
           (log s ++ map Constructed (seq first k) ++ map Destroyed (seq first k))
           (calls s + S k)).
Proof.
  intros Hcp Hd Hkn Hok He. unfold uninitialized_fill. rewrite Hcp.
  unfold unchecked_uninit_fill_nontrivial.
  rewrite (fill_loop_throw_at ctor k (last - first) value first e s Hkn Hok He).
  rewrite destroy_loop_closed by exact Hd. simpl.
  replace (first + k - first) with k by lia.
  pose proof (raw_range_live_range first (replicate k value) (dst s)) as Hr.
  rewrite length_replicate in Hr. rewrite Hr, <- app_assoc. reflexivity.
Qed.

(** [uninitialized_move(first, first + n, result)] and
    [uninitialized_move_n(first, n, result)] (both dispatch paths) when no
    move construction throws and the source has the [n] elements: they
    return [result + n], the slots from [result] hold the source elements in
    order, other slots are unchanged, and the moved source elements are left
    moved-from on the non-trivial path, untouched on the flat one. *)
Theorem uninitialized_move_moves (tr : traits) (ctor : nat -> option E) (mv : A -> A)
    (first n result : nat) (s : st A) :
  (forall c, ctor c = None) -> first + n <= length (src s) ->
  (exists s', uninitialized_move tr ctor mv first (first + n) result s = Normal (result + n) s' /\
     dst s' = live_range result (take n (drop first (src s))) (dst s) /\
     src s' = if trivially_move_assignable tr then src s else moved_range mv first n (src s)) /\
  (exists s', uninitialized_move_n tr ctor mv first n result s = Normal (result + n) s' /\
     dst s' = live_range result (take n (drop first (src s))) (dst s) /\
     src s' = if trivially_move_assignable tr then src s else moved_range mv first n (src s)).
Proof.
  intros Hc Hn.
  assert (Hlen : length (take n (drop first (src s))) = n)
    by (rewrite length_take, length_drop; lia).
  split.
  - unfold uninitialized_move, unchecked_uninit_move_nontrivial.
    replace (first + n - first) with n by lia. destruct (trivially_move_assignable tr).
    + rewrite flat_write_closed, Hlen. eexists; split; [reflexivity|split; reflexivity].
    + rewrite move_loop_no_throw by assumption.
      eexists; split; [reflexivity|split; reflexivity].
  - unfold uninitialized_move_n. destruct (trivially_move_assignable tr).
    + rewrite flat_write_closed, Hlen. eexists; split; [reflexivity|split; reflexivity].
    + unfold unchecked_uninit_move_n_nontrivial. rewrite move_loop_no_throw by assumption.
      eexists; split; [reflexivity|split; reflexivity].
Qed.

(** When move construction [k] of [n] throws [e] (type with no trivial move
    or destructor): [uninitialized_move_n] destroys exactly the [k] slots
    built before, in forward order, and rethrows [e] itself;
    [uninitialized_move] over the same range does the same rollback and
    returns [result + k] normally.  Either way the [k] source elements
    already moved from stay moved-from. *)
Theorem uninitialized_move_rollback (tr : traits) (ctor : nat -> option E) (mv : A -> A)
    (first n result k : nat) (e : E) (s : st A) :
  trivially_move_assignable tr = false -> trivially_destructible tr = false ->
  k < n -> first + k < length (src s) ->
  (forall c, c < k -> ctor (calls s + c) = None) -> ctor (calls s + k) = Some e ->
  uninitialized_move_n tr ctor mv first n result s =
    Thrown e (mk_st (moved_range mv first k (src s)) (raw_range result (result + k) (dst s))
                    (log s ++ map Constructed (seq result k) ++ map Destroyed (seq result k))
                    (calls s + S k)) /\
  uninitialized_move tr ctor mv first (first + n) result s =
    Normal (result + k)
      (mk_st (moved_range mv first k (src s)) (raw_range result (result + k) (dst s))
             (log s ++ map Constructed (seq result k) ++ map Destroyed (seq result k))
             (calls s + S k)).
Proof.
  intros Hmv Hd Hkn Hsrc Hok He.
  assert (Hlen : length (take k (drop first (src s))) = k)
    by (rewrite length_take, length_drop; lia).
  pose proof (raw_range_live_range result (take k (drop first (src s))) (dst s)) as Hr.
  rewrite Hlen in Hr. split.
  - unfold uninitialized_move_n. rewrite Hmv. unfold unchecked_uninit_move_n_nontrivial.
    rewrite (move_loop_throw_at ctor mv k n first result e s Hkn Hsrc Hok He).
    rewrite destroy_loop_closed by exact Hd. simpl.
    replace (result + k - result) with k by lia. rewrite Hr, <- app_assoc. reflexivity.
  - unfold uninitialized_move. rewrite Hmv. unfold unchecked_uninit_move_nontrivial.
    replace (first + n - first) with n by lia.
    rewrite (move_loop_throw_at ctor mv k n first result e s Hkn Hsrc Hok He).
    unfold destroy, destroy_cat. rewrite Hd. rewrite destroy_loop_closed by exact Hd. simpl.
    replace (result + k - result) with k by lia. rewrite Hr, <- app_assoc. reflexivity.
Qed.

(** [destroy(first, last)] composes: destroying [first, mid) and then
    [mid, last) is destroying [first, last). *)
Theorem destroy_split (tr : traits) (f m l : nat) (s : st A) :
  f <= m -> m <= l -> destroy tr m l (destroy tr f m s) = destroy tr f l s.
Proof.
  intros Hfm Hml. unfold destroy, destroy_cat.
  destruct (trivially_destructible tr) eqn:Hd; [reflexivity|].
  rewrite !destroy_loop_closed by exact Hd. simpl.
  replace (m + (l - m)) with l by lia. replace (f + (m - f)) with m by lia.
  replace (f + (l - f)) with l by lia. rewrite raw_range_split by assumption.
  replace (l - f) with ((m - f) + (l - m)) by lia.
  rewrite seq_app, map_app, app_assoc. replace (f + (m - f)) with m by lia. reflexivity.
Qed.

(** Construction then teardown: [uninitialized_copy] into raw slots with no
    throwing copy construction, followed by [destroy(result, result + n)]
    for a type that is not trivially destructible, gives back the
    destination exactly as it was and the source unchanged, the log gaining
    one destructor call per slot, in forward order. *)
Theorem uninitialized_copy_destroy_round_trip (tr : traits) (ctor : nat -> option E)
    (xs : list A) (result : nat) (s : st A) :
  (forall c, ctor c = None) -> trivially_destructible tr = false ->
  (forall i x, result <= i < result + length xs -> dst s !! i = Some x -> x = Raw) ->
  exists s', uninitialized_copy tr ctor xs result s = Normal (result + length xs) s' /\
    destroy tr result (result + length xs) s' =
    mk_st (src s) (dst s) (log s' ++ map Destroyed (seq result (length xs))) (calls s').
Proof.
  intros Hc Hd Hraw.
  assert (Hback : forall s' : st A, src s' = src s ->
            dst s' = live_range result xs (dst s) ->
            destroy tr result (result + length xs) s' =
            mk_st (src s) (dst s) (log s' ++ map Destroyed (seq result (length xs))) (calls s')).
  { intros s' Hsrc Hdst. unfold destroy, destroy_cat. rewrite Hd.
    rewrite destroy_loop_closed by exact Hd.
    replace (result + length xs - result) with (length xs) by lia.
    rewrite Hdst, Hsrc, raw_range_live_range, raw_range_id by exact Hraw. reflexivity. }
  unfold uninitialized_copy. destruct (trivially_copy_assignable tr).
  - rewrite flat_write_closed. eexists; split; [reflexivity|]. apply Hback; reflexivity.
  - unfold unchecked_uninit_copy_nontrivial. rewrite copy_loop_no_throw by exact Hc.
    eexists; split; [reflexivity|]. apply Hback; reflexivity.
Qed.

End BulkOps.

Lemma div_pow2_0 (x : Z) : (x / 2 ^ Z.of_nat 0 = x)%Z.
Proof. change (Z.of_nat 0) with 0%Z. rewrite Z.pow_0_r, Z.div_1_r. reflexivity. Qed.

Lemma div_pow2_succ (x : Z) (i : nat) :
  (x / 2 ^ Z.of_nat (S i) = (x / 2) / 2 ^ Z.of_nat i)%Z.
Proof.
  rewrite Nat2Z.inj_succ, Z.pow_succ_r by lia.
  rewrite Z.div_div; [reflexivity|lia|apply Z.pow_pos_nonneg; lia].
Qed.

Section BufferMore.
Variable sizeof_T : Z.
Variable malloc : Z -> option positive.

Lemma halving_alloc_first_fit (p : positive) :
  match halving_alloc sizeof_T malloc p with
  | (Addr a, g) => exists j : nat,
      g = (Z.pos p / 2 ^ Z.of_nat j)%Z /\ (0 < g)%Z /\ malloc (g * sizeof_T)%Z = Some a /\
      forall i : nat, (i < j)%nat -> malloc (Z.pos p / 2 ^ Z.of_nat i * sizeof_T)%Z = None
  | (Null, g) => g = 0%Z /\
      forall i : nat, (0 < Z.pos p / 2 ^ Z.of_nat i)%Z ->
        malloc (Z.pos p / 2 ^ Z.of_nat i * sizeof_T)%Z = None
  | (Indeterminate, _) => False
  end.
Proof.
  induction p as [q IH|q IH|]; cbn [halving_alloc]; destruct (malloc _) as [a|] eqn:Hm.
  - exists 0%nat. rewrite div_pow2_0.
    repeat split; first [assumption|reflexivity|lia|intros; lia].
  - assert (H2 : (Z.pos q~1 / 2 = Z.pos q)%Z)
      by (rewrite Pos2Z.inj_xI; Z.div_mod_to_equations; lia).
    destruct (halving_alloc sizeof_T malloc q) as [[|a|] g]; try contradiction.
    + destruct IH as [Hg Hnone]. split; [exact Hg|].
      intros [|i] Hi; [rewrite div_pow2_0; exact Hm|].
      rewrite div_pow2_succ, H2 in Hi |- *. apply Hnone. exact Hi.
    + destruct IH as (j & Hg & Hpos & Hma & Hbefore). exists (S j).
      rewrite div_pow2_succ, H2. repeat split; auto.
      intros [|i] Hi; [rewrite div_pow2_0; exact Hm|].
      rewrite div_pow2_succ, H2. apply Hbefore. lia.
  - exists 0%nat. rewrite div_pow2_0.
    repeat split; first [assumption|reflexivity|lia|intros; lia].
  - assert (H2 : (Z.pos q~0 / 2 = Z.pos q)%Z)
      by (rewrite Pos2Z.inj_xO; Z.div_mod_to_equations; lia).
    destruct (halving_alloc sizeof_T malloc q) as [[|a|] g]; try contradiction.
    + destruct IH as [Hg Hnone]. split; [exact Hg|].
      intros [|i] Hi; [rewrite div_pow2_0; exact Hm|].
      rewrite div_pow2_succ, H2 in Hi |- *. apply Hnone. exact Hi.
    + destruct IH as (j & Hg & Hpos & Hma & Hbefore). exists (S j).
      rewrite div_pow2_succ, H2. repeat split; auto.
      intros [|i] Hi; [rewrite div_pow2_0; exact Hm|].
      rewrite div_pow2_succ, H2. apply Hbefore. lia.
  - exists 0%nat. rewrite div_pow2_0.
    repeat split; first [assumption|reflexivity|lia|intros; lia].
  - split; [reflexivity|]. intros [|i] Hi; [rewrite div_pow2_0; exact Hm|].
    rewrite div_pow2_succ in Hi. change (Z.pos 1 / 2)%Z with 0%Z in Hi.
    rewrite Zdiv_0_l in Hi. lia.
Qed.

(** [get_buffer_helper(len)] grants the first length of the halving sequence
    [m, m / 2, m / 4, ...] of the clamped request [m = min(len,
    INT_MAX / sizeof(T))] for which [malloc] succeeds: every longer one was
    refused.  It returns [(nullptr, 0)] only when [malloc] refused every
    positive length of the sequence. *)
Theorem get_buffer_helper_first_fit (l : Z) :
  let m := Z.min l (INT_MAX / sizeof_T) in
  match get_buffer_helper sizeof_T malloc l with
  | (Addr a, g) => exists j : nat,
      g = (m / 2 ^ Z.of_nat j)%Z /\ (0 < g)%Z /\ malloc (g * sizeof_T)%Z = Some a /\
      forall i : nat, (i < j)%nat -> malloc (m / 2 ^ Z.of_nat i * sizeof_T)%Z = None
  | (Null, g) => g = 0%Z /\
      forall i : nat, (0 < m / 2 ^ Z.of_nat i)%Z -> malloc (m / 2 ^ Z.of_nat i * sizeof_T)%Z = None
  | (Indeterminate, _) => False
  end.
Proof.
  intros m. unfold get_buffer_helper. rewrite (clamp_len_spec sizeof_T l). fold m.
  clearbody m. destruct m as [|p|p].
  - split; [reflexivity|]. intros i Hi. rewrite Zdiv_0_l in Hi. lia.
  - apply halving_alloc_first_fit.
  - split; [reflexivity|]. intros i Hi. exfalso.
    assert (Hp : (0 < 2 ^ Z.of_nat i)%Z) by (apply Z.pow_pos_nonneg; lia).
    pose proof (Z.div_le_upper_bound (Z.neg p) (2 ^ Z.of_nat i) 0 Hp ltac:(lia)). lia.
Qed.

Lemma allocate_buffer_bounds (tb : temporary_buffer) :
  (0 < sizeof_T)%Z -> (0 <= len tb)%Z ->
  original_len (allocate_buffer sizeof_T malloc tb) = len tb /\
  (0 <= len (allocate_buffer sizeof_T malloc tb) <= Z.min (len tb) (INT_MAX / sizeof_T))%Z.
Proof.
  intros Hsz Hl.
  assert (Hm : (0 <= INT_MAX / sizeof_T)%Z) by (apply Z.div_pos; unfold INT_MAX; lia).
  unfold allocate_buffer. pose proof (clamp_len_spec sizeof_T (len tb)) as Hc.
  destruct (clamp_len sizeof_T (len tb)) as [|p|p]; simpl; [lia| |lia].
  pose proof (halving_alloc_spec sizeof_T malloc p) as H.
  destruct (halving_alloc sizeof_T malloc p) as [b g]. simpl.
  destruct H as [[_ ->]|(j & a & Hg & Hpos & _ & _)]; [lia|].
  split; [reflexivity|]. split; [lia|]. rewrite <- Hc, Hg.
  assert (Hp : (0 < 2 ^ Z.of_nat j)%Z) by (apply Z.pow_pos_nonneg; lia).
  apply Z.div_le_upper_bound; [exact Hp|]. nia.
Qed.

End BufferMore.

Section BufferLifecycle.
Context {A E : Type}.

Lemma raw_range_replicate (n : nat) (y : slot A) :
  raw_range 0 (0 + n) (replicate n y) = replicate n Raw.
Proof.
  apply list_eq; intros j. unfold raw_range. rewrite list_lookup_imap.
  destruct (decide (j < n)) as [Hj|Hj].
  - rewrite !lookup_replicate_2 by lia. simpl. case_decide; [reflexivity|lia].
  - rewrite !lookup_ge_None_2 by (rewrite length_replicate; lia). reflexivity.
Qed.

(** [temporary_buffer(first, last)] of a type with [sizeof(T) > 0]: its
    [requested_size()] is [distance(first, last)], and its [size()] is
    between 0 and both the request and [INT_MAX / sizeof(T)], whatever
    [malloc] and the constructors do. *)
Theorem temporary_buffer_sizes (tr : traits) (ctor : nat -> option E) (sizeof_T : Z)
    (malloc : Z -> option positive) (cat : iterator_tag) (xs : list A) (s : st A)
    (tb : temporary_buffer)
    (s' : st A) :
  (0 < sizeof_T)%Z ->
  temporary_buffer_ctor tr ctor sizeof_T malloc cat xs s = (tb, s') ->
  requested_size tb = Z.of_nat (length xs) /\
  (0 <= size tb <= Z.min (requested_size tb) (INT_MAX / sizeof_T))%Z.
Proof.
  intros Hsz Hrun.
  unfold temporary_buffer_ctor in Hrun. rewrite distance_length in Hrun.
  destruct (allocate_buffer_bounds sizeof_T malloc
              (mk_tb 0 (Z.of_nat (length xs)) Indeterminate) Hsz ltac:(simpl; lia)) as [Ho Hl].
  set (tb0 := allocate_buffer sizeof_T malloc (mk_tb 0 (Z.of_nat (length xs)) Indeterminate)) in *.
  simpl in Ho, Hl. unfold size, requested_size.
  assert (Hm : (0 <= INT_MAX / sizeof_T)%Z) by (apply Z.div_pos; unfold INT_MAX; lia).
  repeat case_match; inversion Hrun; subst; simpl in *; lia.
Qed.

(** A [temporary_buffer] acquired with a positive length when no
    constructor throws, for a type that is not trivially destructible: it
    holds a block from [malloc] whose granted slots are live copies of
    [*first] (raw when [T] is trivially default constructible), and
    [~temporary_buffer()] runs the destructor on each granted slot in order,
    leaving them all raw. *)
Theorem temporary_buffer_lifecycle (tr : traits) (ctor : nat -> option E) (sizeof_T : Z)
    (malloc : Z -> option positive) (cat : iterator_tag) (x : A) (xs : list A) (s : st A)
    (tb : temporary_buffer)
    (s' : st A) :
  (forall c, ctor c = None) -> trivially_destructible tr = false ->
  temporary_buffer_ctor tr ctor sizeof_T malloc cat (x :: xs) s = (tb, s') ->
  (0 < len tb)%Z ->
  (exists a, buffer tb = Addr a) /\
  dst s' = replicate (Z.to_nat (len tb))
             (if trivially_default_constructible tr then Raw else Live x) /\
  dst (temporary_buffer_dtor tr tb s') = replicate (Z.to_nat (len tb)) Raw /\
  log (temporary_buffer_dtor tr tb s') = log s' ++ map Destroyed (seq 0 (Z.to_nat (len tb))).
Proof.
  intros Hc Hd Hrun Hpos.
  pose proof (temporary_buffer_init_no_throw tr ctor sizeof_T malloc cat x xs s Hc) as H.
  rewrite Hrun in H. simpl in H. destruct (H Hpos) as [Ha Hdst].
  split; [exact Ha|]. split; [exact Hdst|].
  unfold temporary_buffer_dtor, destroy, destroy_cat. rewrite Hd.
  rewrite destroy_loop_closed by exact Hd. simpl. rewrite Nat.sub_0_r.
  split; [|reflexivity]. rewrite Hdst. apply raw_range_replicate.
Qed.

End BufferLifecycle.

(** [allocator<T>::allocate(n)] for [n > 0] either propagates
    [std::bad_alloc] from [::operator new(n * sizeof(T))], changing
    nothing, or returns the non-null block it got; when that block was not
    already allocated, [deallocate(p, n)] and [deallocate(p)] give back the
    blocks as before.  The byte count passed to [::operator new] is
    [n * sizeof(T)] reduced modulo [2^64], so it is the full product only when
    that fits in [size_t].  For [0 < sizeof(T) < 2^64], [allocate()] is
    [allocate(1)]. *)
Theorem allocate_deallocate_round_trip (sizeof_T : Z) (operator_new : Z -> option positive)
    (n : N) (blocks : gset positive) :
  (0 < n)%N ->
  match Allocator.allocate sizeof_T operator_new n blocks with
  | (Allocator.Allocated p, blocks') =>
      exists a, p = Addr a /\
        operator_new ((Z.of_N n * sizeof_T) mod 2 ^ 64)%Z = Some a /\ a ∈ blocks' /\
        (a ∉ blocks -> Allocator.deallocate p n blocks' = blocks /\
                       Allocator.deallocate1 p blocks' = blocks)
  | (Allocator.BadAlloc, blocks') =>
      operator_new ((Z.of_N n * sizeof_T) mod 2 ^ 64)%Z = None /\ blocks' = blocks
  end /\
  ((0 <= Z.of_N n * sizeof_T < 2 ^ 64)%Z ->
     Allocator.size_t_mul n sizeof_T = (Z.of_N n * sizeof_T)%Z) /\
  ((0 < sizeof_T < 2 ^ 64)%Z ->
     Allocator.allocate1 sizeof_T operator_new blocks =
     Allocator.allocate sizeof_T operator_new 1 blocks).
Proof.
  intros Hn. split; [|split].
  - unfold Allocator.allocate, Allocator.size_t_mul.
    destruct (N.eqb_spec n 0) as [->|_]; [lia|].
    destruct (operator_new _) as [a|] eqn:Hnew; [|split; reflexivity].
    exists a. split; [reflexivity|]. split; [reflexivity|]. split; [set_solver|].
    intros Ha. simpl. split; set_solver.
  - intros Hb. unfold Allocator.size_t_mul. apply Z.mod_small. exact Hb.
  - intros Hs. unfold Allocator.allocate1, Allocator.allocate, Allocator.size_t_mul. simpl.
    rewrite Z.mul_1_l, Z.mod_small by lia. reflexivity.
Qed.

Section OwnershipProofs.

Lemma auto_ptr_get_set (i k : nat) (p : ptr) (h : heap) :
  i < length (handles h) ->
  AutoPtr.get k (AutoPtr.set_ptr i p h) = if decide (k = i) then p else AutoPtr.get k h.
Proof.
  intros Hi. case_decide as Hk.
  - subst. apply auto_ptr_get_set_eq. exact Hi.
  - apply auto_ptr_get_set_ne. congruence.
Qed.

Lemma auto_ptr_get_make (k : nat) (p : ptr) (h : heap) :
  AutoPtr.get k (AutoPtr.make p h) =
  if decide (k = length (handles h)) then p else AutoPtr.get k h.
Proof.
  unfold AutoPtr.get, AutoPtr.make. simpl. rewrite lookup_app.
  destruct (handles h !! k) as [q|] eqn:Hk.
  - apply lookup_lt_Some in Hk. case_decide; [lia|reflexivity].
  - apply lookup_ge_None_1 in Hk. case_decide as He.
    + subst. rewrite Nat.sub_diag. reflexivity.
    + destruct (k - length (handles h)) eqn:Hs; [lia|reflexivity].
Qed.

Lemma owns_release (i : nat) (h : heap) :
  owns_exclusively h -> i < length (handles h) -> owns_exclusively (AutoPtr.set_ptr i Null h).
Proof.
  intros (Hx & Hl & Hn) Hi. split; [|split].
  - intros k1 k2 a Hne. rewrite !auto_ptr_get_set by exact Hi.
    repeat case_decide; try discriminate. eapply Hx; eauto.
  - intros k a. rewrite auto_ptr_get_set by exact Hi. simpl.
    case_decide; [discriminate|]. apply Hl.
  - intros k. rewrite auto_ptr_get_set by exact Hi. case_decide; [discriminate|]. apply Hn.
Qed.

Lemma owns_make (p : ptr) (h : heap) :
  owns_exclusively h ->
  (p = Null \/ exists a, p = Addr a /\ a ∈ live h /\ forall k, AutoPtr.get k h <> Addr a) ->
  owns_exclusively (AutoPtr.make p h).
Proof.
  intros (Hx & Hl & Hn) Hp. split; [|split].
  - intros k1 k2 a Hne. rewrite !auto_ptr_get_make.
    destruct Hp as [->|(b & -> & _ & Hfree)];
      repeat case_decide; subst; try discriminate; try lia.
    + eapply Hx; eauto.
    + intros [= ->] Hk2. eapply Hfree. exact Hk2.
    + intros Hk1 [= ->]. eapply Hfree. exact Hk1.
    + eapply Hx; eauto.
  - intros k a. rewrite auto_ptr_get_make. simpl. case_decide; [|apply Hl].
    destruct Hp as [->|(b & -> & Hb & _)]; [discriminate|]. intros [= ->]. exact Hb.
  - intros k. rewrite auto_ptr_get_make. case_decide; [|apply Hn].
    destruct Hp as [->|(b & -> & _)]; discriminate.
Qed.

Lemma two_handles_owns : owns_exclusively two_handles.
Proof.
  split; [|split].
  - intros [|[|i]] [|[|j]] a Hne; simpl; try discriminate; intros [= <-]; try lia; discriminate.
  - intros [|[|i]] a; simpl; try discriminate. intros [= <-]. set_solver.
  - intros [|[|i]]; simpl; discriminate.
Qed.

End OwnershipProofs.

Lemma owns_delete_other (i k : nat) (a : positive) (h : heap) :
  owns_exclusively h -> k <> i -> AutoPtr.get k h = Addr a ->
  a ∈ live (AutoPtr.delete_obj (AutoPtr.get i h) h).
Proof.
  intros (Hx & Hl & _) Hki Gk. rewrite auto_ptr_live_delete.
  pose proof (Hl k a Gk) as Ha.
  destruct (AutoPtr.get i h) as [|b|] eqn:Gi; [exact Ha| |exact Ha].
  assert (a <> b) by (intros ->; exact (Hx k i b Hki Gk Gi)). set_solver.
Qed.

(** Under the ownership invariant, the template [operator=(auto_ptr<U>&)]
    that compares [get()] acts on two distinct handles as
    [operator=(const auto_ptr&)] that compares [this]: two distinct handles
    holding the same pointer both hold [nullptr]. *)
Lemma assign_from_as_assign (i j : nat) (h : heap) :
  owns_exclusively h -> i < length (handles h) -> j < length (handles h) -> i <> j ->
  AutoPtr.assign_from i j h = AutoPtr.assign i j h.
Proof.
  intros (Hx & _ & Hn) Hi Hj Hij.
  unfold AutoPtr.assign_from. case_decide as Heq.
  - assert (Hnull : AutoPtr.get j h = Null).
    { destruct (AutoPtr.get j h) as [|a|] eqn:Gj; [reflexivity| |].
      - exfalso. exact (Hx i j a Hij Heq Gj).
      - exfalso. exact (Hn j Gj). }
    assert (Hs : forall k, k < length (handles h) -> AutoPtr.get k h = Null ->
                   <[k := Null]> (handles h) = handles h).
    { intros k Hk Gk. apply list_insert_id. unfold AutoPtr.get in Gk.
      destruct (handles h !! k) eqn:E; [congruence|].
      apply lookup_ge_None_1 in E. lia. }
    unfold AutoPtr.assign. rewrite decide_False by exact Hij.
    rewrite Heq, Hnull. unfold AutoPtr.release. cbv beta iota zeta.
    cbn [AutoPtr.delete_obj]. rewrite Hnull. unfold AutoPtr.set_ptr. simpl.
    rewrite (Hs j Hj Hnull). rewrite (Hs i Hi ltac:(rewrite Heq; exact Hnull)).
    destruct h; reflexivity.
  - unfold AutoPtr.assign. rewrite decide_False by exact Hij. reflexivity.
Qed.

(** The ownership invariant [owns_exclusively] (no object held by two
    [auto_ptr]s, every held object live) is kept by [release()], by the
    copy constructor [auto_ptr b(a)], and by [explicit auto_ptr(p)] when [p]
    is null or a live object no handle holds. *)
Theorem auto_ptr_ownership_transfer (i : nat) (p : ptr) (h : heap) :
  owns_exclusively h -> i < length (handles h) ->
  owns_exclusively (snd (AutoPtr.release i h)) /\
  owns_exclusively (AutoPtr.copy_ctor i h) /\
  ((p = Null \/ exists a, p = Addr a /\ a ∈ live h /\ forall k, AutoPtr.get k h <> Addr a) ->
   owns_exclusively (AutoPtr.make p h)).
Proof.
  intros Hown Hi. split; [|split].
  - apply owns_release; assumption.
  - unfold AutoPtr.copy_ctor, AutoPtr.release. cbv beta iota zeta.
    apply owns_make; [apply owns_release; assumption|].
    destruct (AutoPtr.get i h) as [|a|] eqn:Hg;
      [left; reflexivity| |exfalso; exact (proj2 (proj2 Hown) i Hg)].
    right. exists a. split; [reflexivity|].
    split; [exact (proj1 (proj2 Hown) i a Hg)|].
    intros k. rewrite auto_ptr_get_set by exact Hi. case_decide; [discriminate|].
    intros Hk. exact (proj1 Hown k i a ltac:(lia) Hk Hg).
  - apply owns_make. exact Hown.
Qed.

(** Assignment [a = b] between handles of an [auto_ptr] family keeps the
    ownership invariant and never deletes an object another handle holds
    (the object moving from [b] to [a] included).  Under the invariant the
    template [operator=(auto_ptr<U>&)], which compares [get()] instead of
    [this], acts exactly as [operator=(const auto_ptr&)]: two distinct handles
    holding the same pointer both hold [nullptr]. *)
Theorem auto_ptr_assign_ownership (i j : nat) (h : heap) :
  owns_exclusively h -> i < length (handles h) -> j < length (handles h) ->
  owns_exclusively (AutoPtr.assign i j h) /\
  AutoPtr.assign_from i j h = AutoPtr.assign i j h /\
  (forall k a, k <> i -> AutoPtr.get k h = Addr a -> a ∈ live (AutoPtr.assign i j h)).
Proof.
  intros Hown Hi Hj. pose proof Hown as (Hx & Hl & Hn).
  destruct (decide (i = j)) as [<-|Hij].
  { unfold AutoPtr.assign_from, AutoPtr.assign. rewrite !decide_True by reflexivity.
    split; [exact Hown|]. split; [reflexivity|]. intros k a _. apply Hl. }
  assert (Hget : forall k, AutoPtr.get k (AutoPtr.assign i j h) =
            if decide (k = i) then AutoPtr.get j h
            else if decide (k = j) then Null else AutoPtr.get k h).
  { intros k. unfold AutoPtr.assign. rewrite decide_False by exact Hij.
    unfold AutoPtr.release. cbv beta iota zeta.
    rewrite auto_ptr_get_set by (rewrite auto_ptr_length_set, auto_ptr_handles_delete; exact Hi).
    rewrite auto_ptr_get_set by (rewrite auto_ptr_handles_delete; exact Hj).
    rewrite !auto_ptr_get_delete. reflexivity. }
  assert (Hlive : live (AutoPtr.assign i j h) = live (AutoPtr.delete_obj (AutoPtr.get i h) h)).
  { unfold AutoPtr.assign. rewrite decide_False by exact Hij. reflexivity. }
  split; [|split].
  - split; [|split].
    + intros k1 k2 a Hne. rewrite !Hget.
      repeat case_decide; subst; intros G1 G2; try discriminate; try lia;
        (eapply Hx; [|exact G1|exact G2]; lia).
    + intros k a. rewrite Hget, Hlive. case_decide as Hki.
      * intros G. eapply owns_delete_other; [exact Hown| |exact G]. lia.
      * case_decide; [discriminate|]. intros G. eapply owns_delete_other; eauto.
    + intros k. rewrite Hget. repeat case_decide; [apply Hn|discriminate|apply Hn].
  - apply assign_from_as_assign; assumption.
  - intros k a Hki G. rewrite Hlive. eapply owns_delete_other; eauto.
Qed.

(** [reset(p)] keeps the ownership invariant when [p] is null or a live
    object no other handle holds, and [~auto_ptr()] of one handle never
    deletes an object another handle holds. *)
Theorem auto_ptr_reset_dtor_ownership (i : nat) (p : ptr) (h : heap) :
  owns_exclusively h -> i < length (handles h) ->
  ((p = Null \/
    exists a, p = Addr a /\ a ∈ live h /\ forall k, k <> i -> AutoPtr.get k h <> Addr a) ->
   owns_exclusively (AutoPtr.reset i p h)) /\
  (forall k a, k <> i -> AutoPtr.get k h = Addr a -> a ∈ live (AutoPtr.dtor i h)).
Proof.
  intros Hown Hi. pose proof Hown as (Hx & Hl & Hn). split.
  - intros Hp. unfold AutoPtr.reset. case_decide as Hsame; [exact Hown|].
    assert (Hi' : i < length (handles (AutoPtr.delete_obj (AutoPtr.get i h) h)))
      by (rewrite auto_ptr_handles_delete; exact Hi).
    split; [|split].
    + intros k1 k2 a Hne. rewrite !auto_ptr_get_set by exact Hi'. rewrite !auto_ptr_get_delete.
      destruct Hp as [->|(b & -> & _ & Hfree)];
        repeat case_decide; subst; intros G1 G2; try discriminate; try lia.
      * eapply Hx; [exact Hne|exact G1|exact G2].
      * injection G1 as ->. exact (Hfree k2 ltac:(lia) G2).
      * injection G2 as ->. exact (Hfree k1 ltac:(lia) G1).
      * eapply Hx; [exact Hne|exact G1|exact G2].
    + intros k a. rewrite auto_ptr_get_set by exact Hi'. rewrite auto_ptr_get_delete.
      unfold AutoPtr.set_ptr at 1. simpl. case_decide as Hki.
      * destruct Hp as [->|(b & -> & Hb & _)]; [discriminate|]. intros [= <-].
        rewrite auto_ptr_live_delete.
        destruct (AutoPtr.get i h) as [|c|]; [exact Hb| |exact Hb].
        assert (b <> c) by congruence. set_solver.
      * intros G. eapply owns_delete_other; eauto.
    + intros k. rewrite auto_ptr_get_set by exact Hi'. rewrite auto_ptr_get_delete.
      case_decide; [|apply Hn]. destruct Hp as [->|(b & -> & _)]; discriminate.
  - intros k a Hki G. unfold AutoPtr.dtor. eapply owns_delete_other; eauto.
Qed.

(** C7: the assignment [a = b] that runs between two [auto_ptr<T>] lvalues
    is the template [operator=(auto_ptr<U>&)] ([operator=(const auto_ptr&)]
    would call the non-const [release()] on a const reference).  Under the
    ownership invariant, for distinct handles [i] and [j], it deletes the
    object [i] owned and then takes [j.release()]: [i] owns what [j] owned,
    [j] is empty, and the live objects are those before minus [i]'s old one.
    Self-assignment changes nothing: the guard compares [get()] with itself.
    [reset(p)] with [p] the held pointer changes nothing; [reset(p)] twice is
    [reset(p)] once and leaves [p] owned; so when [i] owns object [b] and a
    fresh object [a] is the only other live one, [reset(a)] twice leaves
    exactly [a] alive. *)
Theorem auto_ptr_assign_reset (i j : nat) (a : positive) (h : heap) :
  owns_exclusively h -> i < length (handles h) -> j < length (handles h) ->
  (i <> j ->
     AutoPtr.get i (AutoPtr.assign_from i j h) = AutoPtr.get j h /\
     AutoPtr.get j (AutoPtr.assign_from i j h) = Null /\
     live (AutoPtr.assign_from i j h) = live (AutoPtr.delete_obj (AutoPtr.get i h) h)) /\
  AutoPtr.assign_from i i h = h /\
  AutoPtr.reset i (AutoPtr.get i h) h = h /\
  AutoPtr.reset i (Addr a) (AutoPtr.reset i (Addr a) h) = AutoPtr.reset i (Addr a) h /\
  AutoPtr.get i (AutoPtr.reset i (Addr a) h) = Addr a /\
  (forall b, AutoPtr.get i h = Addr b -> live h = {[a; b]} ->
     live (AutoPtr.reset i (Addr a) (AutoPtr.reset i (Addr a) h)) = {[a]}).
Proof.
  intros Hown Hi Hj.
  assert (Hfix : forall h' p, AutoPtr.get i h' = p -> AutoPtr.reset i p h' = h').
  { intros h' p Hp. unfold AutoPtr.reset. rewrite decide_True by exact Hp. reflexivity. }
  assert (Hget : AutoPtr.get i (AutoPtr.reset i (Addr a) h) = Addr a).
  { unfold AutoPtr.reset. case_decide as Hp; [exact Hp|].
    apply auto_ptr_get_set_eq. rewrite auto_ptr_handles_delete. exact Hi. }
  assert (Hidem : AutoPtr.reset i (Addr a) (AutoPtr.reset i (Addr a) h) =
                  AutoPtr.reset i (Addr a) h) by (apply Hfix; exact Hget).
  split; [|split; [|split; [|split; [|split]]]].
  - intros Hij. rewrite (assign_from_as_assign i j h Hown Hi Hj Hij).
    unfold AutoPtr.assign. rewrite decide_False by exact Hij.
    unfold AutoPtr.release. simpl. split; [|split].
    + rewrite auto_ptr_get_set_eq
        by (rewrite auto_ptr_length_set, auto_ptr_handles_delete; exact Hi).
      apply auto_ptr_get_delete.
    + rewrite auto_ptr_get_set_ne by exact Hij.
      apply auto_ptr_get_set_eq. rewrite auto_ptr_handles_delete. exact Hj.
    + reflexivity.
  - unfold AutoPtr.assign_from. rewrite decide_True by reflexivity. reflexivity.
  - apply Hfix. reflexivity.
  - exact Hidem.
  - exact Hget.
  - intros b Hb Hlive. rewrite Hidem. unfold AutoPtr.reset.
    rewrite Hb. case_decide as Hab.
    + injection Hab as ->. rewrite Hlive. set_solver.
    + simpl. rewrite Hlive. assert (b <> a) by congruence. set_solver.
Qed.

Lemma throw_at_before (k c : nat) : c < k -> throw_at k c = None.
Proof. intros Hc. unfold throw_at. destruct (Nat.eqb_spec c k); [lia|reflexivity]. Qed.

Lemma raw_region_raw (n i : nat) (x : slot nat) : dst (raw_region n) !! i = Some x -> x = Raw.
Proof. unfold raw_region. simpl. intros Hx. apply lookup_replicate in Hx. apply Hx. Qed.

Lemma uninitialized_copy_copies_witness :
  (forall c, never_throws c = None) /\
  exists s', uninitialized_copy nontrivial_traits never_throws [1; 2] 0 (raw_region 2) =
               Normal (0 + length [1; 2]) s' /\
    dst s' = live_range 0 [1; 2] (dst (raw_region 2)) /\ src s' = src (raw_region 2).
Proof.
  split; [intros; reflexivity|].
  apply (uninitialized_copy_copies nontrivial_traits never_throws [1; 2] 0 (raw_region 2)).
  intros; reflexivity.
Defined.

Lemma uninitialized_copy_rollback_witness :
  trivially_copy_assignable nontrivial_traits = false /\
  trivially_destructible nontrivial_traits = false /\ 2 < length [10; 20; 30] /\
  (forall c, c < 2 -> throw_at 2 (calls (raw_region 3) + c) = None) /\
  throw_at 2 (calls (raw_region 3) + 2) = Some 42 /\
  uninitialized_copy nontrivial_traits (throw_at 2) [10; 20; 30] 0 (raw_region 3) =
    Normal 0 (mk_st [] [Live 10; Raw; Raw]
                    [Constructed 0; Constructed 1; Destroyed 2; Destroyed 1] 3).
Proof.
  assert (Hok : forall c, c < 2 -> throw_at 2 (calls (raw_region 3) + c) = None)
    by (intros c Hc; apply throw_at_before; simpl; lia).
  split; [reflexivity|]. split; [reflexivity|]. split; [simpl; lia|].
  split; [exact Hok|]. split; [reflexivity|].
  rewrite (uninitialized_copy_rollback nontrivial_traits (throw_at 2) [10; 20; 30] 0 2 42
             (raw_region 3) eq_refl eq_refl ltac:(simpl; lia) Hok eq_refl).
  reflexivity.
Defined.

Lemma uninitialized_fill_fills_witness :
  (forall c, never_throws c = None) /\
  (exists s', uninitialized_fill nontrivial_traits never_throws 1 3 7 (raw_region 3) = Normal tt s' /\
     dst s' = live_range 1 (replicate (3 - 1) 7) (dst (raw_region 3)) /\
     src s' = src (raw_region 3)) /\
  (exists s', uninitialized_fill_n nontrivial_traits never_throws 1 2 7 (raw_region 3) =
                Normal (1 + 2) s' /\
     dst s' = live_range 1 (replicate 2 7) (dst (raw_region 3)) /\
     src s' = src (raw_region 3)).
Proof.
  split; [intros; reflexivity|].
  apply (uninitialized_fill_fills nontrivial_traits never_throws 1 3 2 7 (raw_region 3)).
  intros; reflexivity.
Defined.

Lemma uninitialized_fill_rollback_witness :
  trivially_copy_assignable nontrivial_traits = false /\
  trivially_destructible nontrivial_traits = false /\ 1 < 3 - 0 /\
  (forall c, c < 1 -> throw_at 1 (calls (raw_region 3) + c) = None) /\
  throw_at 1 (calls (raw_region 3) + 1) = Some 42 /\
  uninitialized_fill nontrivial_traits (throw_at 1) 0 3 7 (raw_region 3) =
    Normal tt (mk_st [] [Raw; Raw; Raw] [Constructed 0; Destroyed 0] 2).
Proof.
  assert (Hok : forall c, c < 1 -> throw_at 1 (calls (raw_region 3) + c) = None)
    by (intros c Hc; apply throw_at_before; simpl; lia).
  split; [reflexivity|]. split; [reflexivity|]. split; [lia|].
  split; [exact Hok|]. split; [reflexivity|].
  rewrite (uninitialized_fill_rollback nontrivial_traits (throw_at 1) 0 3 1 7 42
             (raw_region 3) eq_refl eq_refl ltac:(lia) Hok eq_refl).
  reflexivity.
Defined.

Lemma uninitialized_fill_n_rollback_witness :
  trivially_copy_assignable nontrivial_traits = false /\
  trivially_destructible nontrivial_traits = false /\ 1 < 3 /\
  (forall c, c < 1 -> throw_at 1 (calls (raw_region 3) + c) = None) /\
  throw_at 1 (calls (raw_region 3) + 1) = Some 42 /\
  uninitialized_fill_n nontrivial_traits (throw_at 1) 0 3 7 (raw_region 3) =
    Normal 1 (mk_st [] [Raw; Raw; Raw] [Constructed 0; Destroyed 0] 2).
Proof.
  assert (Hok : forall c, c < 1 -> throw_at 1 (calls (raw_region 3) + c) = None)
    by (intros c Hc; apply throw_at_before; simpl; lia).
  split; [reflexivity|]. split; [reflexivity|]. split; [lia|].
  split; [exact Hok|]. split; [reflexivity|].
  rewrite (uninitialized_fill_n_rollback nontrivial_traits (throw_at 1) 0 3 1 7 42
             (raw_region 3) eq_refl eq_refl ltac:(lia) Hok eq_refl).
  reflexivity.
Defined.

Lemma uninitialized_move_moves_witness :
  (forall c, never_throws c = None) /\ 0 + 2 <= length (src (mk_st [5; 6] [Raw; Raw] [] 0)) /\
  (exists s', uninitialized_move nontrivial_traits never_throws (fun _ => 0) 0 (0 + 2) 0
                (mk_st [5; 6] [Raw; Raw] [] 0) = Normal (0 + 2) s' /\
     dst s' = live_range 0 (take 2 (drop 0 [5; 6])) [Raw; Raw] /\
     src s' = if trivially_move_assignable nontrivial_traits then [5; 6]
              else moved_range (fun _ => 0) 0 2 [5; 6]) /\
  (exists s', uninitialized_move_n nontrivial_traits never_throws (fun _ => 0) 0 2 0
                (mk_st [5; 6] [Raw; Raw] [] 0) = Normal (0 + 2) s' /\
     dst s' = live_range 0 (take 2 (drop 0 [5; 6])) [Raw; Raw] /\
     src s' = if trivially_move_assignable nontrivial_traits then [5; 6]
              else moved_range (fun _ => 0) 0 2 [5; 6]).
Proof.
  split; [intros; reflexivity|]. split; [simpl; lia|].
  apply (uninitialized_move_moves nontrivial_traits never_throws (fun _ => 0) 0 2 0
           (mk_st [5; 6] [Raw; Raw] [] 0)); [intros; reflexivity|simpl; lia].
Defined.

Lemma uninitialized_move_rollback_witness :
  trivially_move_assignable nontrivial_traits = false /\
  trivially_destructible nontrivial_traits = false /\ 1 < 2 /\
  0 + 1 < length (src (mk_st [5; 6] [Raw; Raw] [] 0)) /\
  (forall c, c < 1 -> throw_at 1 (calls (mk_st [5; 6] [Raw; Raw] [] 0) + c) = None) /\
  throw_at 1 (calls (mk_st [5; 6] [Raw; Raw] [] 0) + 1) = Some 42 /\
  uninitialized_move_n nontrivial_traits (throw_at 1) (fun _ => 0) 0 2 0
    (mk_st [5; 6] [Raw; Raw] [] 0) =
    Thrown 42 (mk_st [0; 6] [Raw; Raw] [Constructed 0; Destroyed 0] 2) /\
  uninitialized_move nontrivial_traits (throw_at 1) (fun _ => 0) 0 (0 + 2) 0
    (mk_st [5; 6] [Raw; Raw] [] 0) =
    Normal 1 (mk_st [0; 6] [Raw; Raw] [Constructed 0; Destroyed 0] 2).
Proof.
  assert (Hok : forall c, c < 1 -> throw_at 1 (calls (mk_st [5; 6] [Raw; Raw] [] 0) + c) = None)
    by (intros c Hc; apply throw_at_before; simpl; lia).
  split; [reflexivity|]. split; [reflexivity|]. split; [lia|]. split; [simpl; lia|].
  split; [exact Hok|]. split; [reflexivity|].
  destruct (uninitialized_move_rollback nontrivial_traits (throw_at 1) (fun _ => 0) 0 2 0 1 42
              (mk_st [5; 6] [Raw; Raw] [] 0) eq_refl eq_refl ltac:(lia) ltac:(simpl; lia)
              Hok eq_refl) as [H1 H2].
  rewrite H1, H2. split; reflexivity.
Defined.

Lemma destroy_split_witness :
  0 <= 1 /\ 1 <= 3 /\
  destroy nontrivial_traits 1 3 (destroy nontrivial_traits 0 1 (mk_st [] [Live 1; Live 2; Live 3] [] 0)) =
  destroy nontrivial_traits 0 3 (mk_st [] [Live 1; Live 2; Live 3] [] 0).
Proof.
  split; [lia|]. split; [lia|].
  apply (destroy_split nontrivial_traits 0 1 3 (mk_st [] [Live 1; Live 2; Live 3] [] 0)); lia.
Defined.

Lemma uninitialized_copy_destroy_round_trip_witness :
  (forall c, never_throws c = None) /\ trivially_destructible nontrivial_traits = false /\
  (forall i x, 0 <= i < 0 + length [1; 2] -> dst (raw_region 2) !! i = Some x -> x = Raw) /\
  exists s', uninitialized_copy nontrivial_traits never_throws [1; 2] 0 (raw_region 2) =
               Normal (0 + length [1; 2]) s' /\
    destroy nontrivial_traits 0 (0 + length [1; 2]) s' =
    mk_st (src (raw_region 2)) (dst (raw_region 2))
          (log s' ++ map Destroyed (seq 0 (length [1; 2]))) (calls s').
Proof.
  assert (Hraw : forall i x, 0 <= i < 0 + length [1; 2] ->
                   dst (raw_region 2) !! i = Some x -> x = Raw)
    by (intros i x _; apply raw_region_raw).
  split; [intros; reflexivity|]. split; [reflexivity|]. split; [exact Hraw|].
  apply (uninitialized_copy_destroy_round_trip nontrivial_traits never_throws [1; 2] 0
           (raw_region 2)); [intros; reflexivity|reflexivity|exact Hraw].
Defined.

Lemma temporary_buffer_sizes_witness :
  (0 < 4)%Z /\
  temporary_buffer_ctor nontrivial_traits never_throws 4 (malloc_upto 8)
    random_access_iterator_tag [7; 7; 7] (raw_region 0) =
    (mk_tb 3 1 (Addr 1), mk_st [] [Live 7] [Constructed 0] 1) /\
  requested_size (mk_tb 3 1 (Addr 1)) = Z.of_nat (length [7; 7; 7]) /\
  (0 <= size (mk_tb 3 1 (Addr 1)) <=
   Z.min (requested_size (mk_tb 3 1 (Addr 1))) (INT_MAX / 4))%Z.
Proof.
  split; [lia|]. split; [reflexivity|].
  apply (temporary_buffer_sizes nontrivial_traits never_throws 4 (malloc_upto 8)
    random_access_iterator_tag [7; 7; 7]
           (raw_region 0) (mk_tb 3 1 (Addr 1)) (mk_st [] [Live 7] [Constructed 0] 1));
    [lia|reflexivity].
Defined.

Lemma temporary_buffer_lifecycle_witness :
  (forall c, never_throws c = None) /\ trivially_destructible nontrivial_traits = false /\
  temporary_buffer_ctor nontrivial_traits never_throws 4 (malloc_upto 100)
    random_access_iterator_tag [7; 7] (raw_region 0) =
    (mk_tb 2 2 (Addr 1), mk_st [] [Live 7; Live 7] [Constructed 0; Constructed 1] 2) /\
  (0 < len (mk_tb 2 2 (Addr 1)))%Z /\
  (exists a, buffer (mk_tb 2 2 (Addr 1)) = Addr a) /\
  dst (mk_st [] [Live 7; Live 7] [Constructed 0; Constructed 1] 2) =
    replicate (Z.to_nat (len (mk_tb 2 2 (Addr 1))))
      (if trivially_default_constructible nontrivial_traits then Raw else Live 7) /\
  dst (temporary_buffer_dtor nontrivial_traits (mk_tb 2 2 (Addr 1))
         (mk_st [] [Live 7; Live 7] [Constructed 0; Constructed 1] 2)) =
    replicate (Z.to_nat (len (mk_tb 2 2 (Addr 1)))) Raw /\
  log (temporary_buffer_dtor nontrivial_traits (mk_tb 2 2 (Addr 1))
         (mk_st [] [Live 7; Live 7] [Constructed 0; Constructed 1] 2)) =
    log (mk_st [] [Live 7; Live 7] [Constructed 0; Constructed 1] 2) ++
    map Destroyed (seq 0 (Z.to_nat (len (mk_tb 2 2 (Addr 1))))).
Proof.
  split; [intros; reflexivity|]. split; [reflexivity|]. split; [reflexivity|].
  split; [simpl; lia|].
  apply (temporary_buffer_lifecycle nontrivial_traits never_throws 4 (malloc_upto 100)
           random_access_iterator_tag 7 [7]
           (raw_region 0) (mk_tb 2 2 (Addr 1))
           (mk_st [] [Live 7; Live 7] [Constructed 0; Constructed 1] 2));
    [intros; reflexivity|reflexivity|reflexivity|simpl; lia].
Defined.

Lemma allocate_deallocate_round_trip_witness :
  (0 < 2)%N /\
  match Allocator.allocate 4 (malloc_upto 100) 2 ∅ with
  | (Allocator.Allocated p, blocks') =>
      exists a, p = Addr a /\
        malloc_upto 100 ((Z.of_N 2 * 4) mod 2 ^ 64)%Z = Some a /\ a ∈ blocks' /\
        (a ∉ (∅ : gset positive) -> Allocator.deallocate p 2 blocks' = ∅ /\
                                    Allocator.deallocate1 p blocks' = ∅)
  | (Allocator.BadAlloc, blocks') =>
      malloc_upto 100 ((Z.of_N 2 * 4) mod 2 ^ 64)%Z = None /\ blocks' = ∅
  end /\
  ((0 <= Z.of_N 2 * 4 < 2 ^ 64)%Z -> Allocator.size_t_mul 2 4 = (Z.of_N 2 * 4)%Z) /\
  ((0 < 4 < 2 ^ 64)%Z ->
     Allocator.allocate1 4 (malloc_upto 100) ∅ = Allocator.allocate 4 (malloc_upto 100) 1 ∅).
Proof.
  split; [lia|].
  apply (allocate_deallocate_round_trip 4 (malloc_upto 100) 2 ∅). lia.
Defined.

Lemma auto_ptr_ownership_transfer_witness :
  owns_exclusively two_handles /\ 0 < length (handles two_handles) /\
  owns_exclusively (snd (AutoPtr.release 0 two_handles)) /\
  owns_exclusively (AutoPtr.copy_ctor 0 two_handles) /\
  ((Addr 2 = Null \/ exists a, Addr 2 = Addr a /\ a ∈ live two_handles /\
                               forall k, AutoPtr.get k two_handles <> Addr a) ->
   owns_exclusively (AutoPtr.make (Addr 2) two_handles)).
Proof.
  split; [exact two_handles_owns|]. split; [simpl; lia|].
  apply (auto_ptr_ownership_transfer 0 (Addr 2) two_handles two_handles_owns).
  simpl; lia.
Defined.

Lemma auto_ptr_assign_ownership_witness :
  owns_exclusively two_handles /\ 1 < length (handles two_handles) /\
  0 < length (handles two_handles) /\
  owns_exclusively (AutoPtr.assign 1 0 two_handles) /\
  AutoPtr.assign_from 1 0 two_handles = AutoPtr.assign 1 0 two_handles /\
  (forall k a, k <> 1 -> AutoPtr.get k two_handles = Addr a ->
     a ∈ live (AutoPtr.assign 1 0 two_handles)).
Proof.
  split; [exact two_handles_owns|]. split; [simpl; lia|]. split; [simpl; lia|].
  apply (auto_ptr_assign_ownership 1 0 two_handles two_handles_owns); simpl; lia.
Defined.

Lemma auto_ptr_assign_reset_witness :
  owns_exclusively two_handles /\
  0 < length (handles two_handles) /\ 1 < length (handles two_handles) /\
  AutoPtr.get 0 (AutoPtr.assign_from 0 1 two_handles) = Null /\
  live (AutoPtr.assign_from 0 1 two_handles) = {[2%positive]} /\
  live (AutoPtr.reset 0 (Addr 2) (AutoPtr.reset 0 (Addr 2) two_handles)) = {[2%positive]}.
Proof.
  split; [exact two_handles_owns|]. split; [simpl; lia|]. split; [simpl; lia|].
  destruct (auto_ptr_assign_reset 0 1 2 two_handles) as (Hasg & _ & _ & _ & _ & H);
    [exact two_handles_owns|simpl; lia|simpl; lia|].
  destruct (Hasg ltac:(lia)) as (G & _ & L).
  split; [rewrite G; reflexivity|]. split.
  - rewrite L. unfold two_handles. simpl. set_solver.
  - apply (H 1%positive); [reflexivity|]. unfold two_handles. simpl. set_solver.
Defined.

Lemma auto_ptr_reset_dtor_ownership_witness :
  owns_exclusively two_handles /\ 0 < length (handles two_handles) /\
  ((Addr 2 = Null \/
    exists a, Addr 2 = Addr a /\ a ∈ live two_handles /\
              forall k, k <> 0 -> AutoPtr.get k two_handles <> Addr a) ->
   owns_exclusively (AutoPtr.reset 0 (Addr 2) two_handles)) /\
  (forall k a, k <> 0 -> AutoPtr.get k two_handles = Addr a ->
     a ∈ live (AutoPtr.dtor 0 two_handles)).
Proof.
  split; [exact two_handles_owns|]. split; [simpl; lia|].
  apply (auto_ptr_reset_dtor_ownership 0 (Addr 2) two_handles two_handles_owns). simpl; lia.
Defined.
